(** * Audio transcription pipeline: chunker, merger and submission handler

    A shallow embedding of
      - [lib/audio/processor.ts]  (the chunker, [processAudioFile]),
      - [lib/audio/groq.ts]       (the provider client [transcribeAudio] and
                                   the merger [combineTranscriptions]),
      - the server action [processTranscription] (the submission handler),
    followed by the properties of the specification that concern them.

    Conventions.
      - A JavaScript [number] is an IEEE 754 binary64 value: [spec_float]
        with precision 53 and maximal exponent 1024, and [+] is [SFadd].
        Byte counts and array indices are integers far below 2^53, where
        binary64 arithmetic is exact; they are kept in [N] and [nat].
      - A JavaScript string is its sequence of UTF-16 code units.
      - [throw] is the left injection of a sum; the value thrown is either an
        [Error] carrying a message or something that is not an [Error].
      - Calls that leave the process (the speech-to-text provider, the
        database) are parameters of the handler, and every such call is
        recorded, in order, in a trace.
      - Left out: the [console.error] calls, which change no result; the
        [validatedActionWithUser] wrapper and its schema, which run before
        the handler; and the limit engines put on the number of arguments of
        [Math.max(...array)], beyond which the call throws and the
        submission fails.
      - Record fields keep their names in the source, except where two
        records share one: [r_text] is the [text] of a response, [end_] the
        [end] of a segment, and the fields of the object given to
        [saveTranscription] carry the prefix [d_]. *)

From Stdlib Require Import String Ascii Strings.Byte Numbers.DecimalString.
From Stdlib Require Import List Bool Arith NArith ZArith Lia.
From Stdlib Require Import Floats.SpecFloat.
From Equations Require Import Equations.
Import ListNotations.

Set Implicit Arguments.

(* ===================================================================== *)
(** * JavaScript values *)
(* ===================================================================== *)

Module Js.

(** ** Strings: sequences of UTF-16 code units *)

Definition code_unit := N.
Definition js_string := list code_unit.

(** A source literal (ASCII only in this program). *)
Definition lit (s : string) : js_string :=
  map N_of_ascii (list_ascii_of_string s).

(** [WhiteSpace] and [LineTerminator] of ECMAScript, the code units that
    [String.prototype.trim] strips. *)
Definition is_white_space (c : code_unit) : bool :=
  existsb (N.eqb c)
    [ 0x0009; 0x000A; 0x000B; 0x000C; 0x000D; 0x0020; 0x00A0; 0x1680;
      0x2000; 0x2001; 0x2002; 0x2003; 0x2004; 0x2005; 0x2006; 0x2007;
      0x2008; 0x2009; 0x200A; 0x2028; 0x2029; 0x202F; 0x205F; 0x3000;
      0xFEFF ]%N.

Fixpoint trimStart (s : js_string) : js_string :=
  match s with
  | c :: s' => if is_white_space c then trimStart s' else s
  | [] => []
  end.

Definition trimEnd (s : js_string) : js_string := rev (trimStart (rev s)).

Definition trim (s : js_string) : js_string := trimEnd (trimStart s).

(** [Array.prototype.join] on an array of strings. *)
Fixpoint join (sep : js_string) (l : list js_string) : js_string :=
  match l with
  | [] => []
  | [s] => s
  | s :: l' => s ++ sep ++ join sep l'
  end.

(** [`${n}`] for a non-negative integer [n]: its decimal digits. *)
Definition string_of_N (n : N) : js_string :=
  lit (NilZero.string_of_uint (N.to_uint n)).

Definition string_of_index (n : nat) : js_string := string_of_N (N.of_nat n).

(** The string ["\n"]. *)
Definition newline : js_string := [0x000A%N].

(** [s] occurs in [t]. *)
Definition includes (t s : js_string) : Prop :=
  exists pre post, t = pre ++ s ++ post.

(** ** Numbers: binary64 *)

Definition number := spec_float.

Definition prec : Z := 53.
Definition emax : Z := 1024.

Definition add : number -> number -> number := SFadd prec emax.

(** The number denoted by an integer literal. *)
Definition of_Z (z : Z) : number := binary_normalize prec emax z 0 false.

Definition zero : number := S754_zero false.

(** [x < y] and [x <= y] on numbers; both are false when a side is NaN. *)
Definition ltb : number -> number -> bool := SFltb.
Definition leb : number -> number -> bool := SFleb.

Definition is_nan (x : number) : bool :=
  match x with S754_nan => true | _ => false end.

(** [Math.max(...args)]: NaN as soon as an argument is NaN, otherwise the
    largest argument, [+0] counting as larger than [-0]; [-Infinity] for no
    argument. *)
Fixpoint Math_max_from (highest : number) (args : list number) : number :=
  match args with
  | [] => highest
  | x :: args' =>
      if is_nan x then S754_nan
      else
        let highest :=
          match x, highest with
          | S754_zero false, S754_zero true => x
          | _, _ => highest
          end in
        Math_max_from (if ltb highest x then x else highest) args'
  end.

Definition Math_max (args : list number) : number :=
  Math_max_from (S754_infinity true) args.

(** [Math.round(x)]: [x] itself when it is not finite or is integral;
    otherwise the closest integer, the one nearer to [+Infinity] on a tie,
    with the sign of [x] kept on a zero result. *)
Definition Math_round (x : number) : number :=
  match x with
  | S754_finite s m e =>
      match e with
      | Zneg k =>
          let d := Z.pow_pos 2 k in
          if Z.eqb (Z.modulo (Zpos m) d) 0 then x
          else
            let sm := if s then Zneg m else Zpos m in
            let n := Z.div (2 * sm + d) (2 * d) in
            if Z.eqb n 0 then S754_zero s else of_Z n
      | _ => x
      end
  | _ => x
  end.

(** ** Exceptions *)

Inductive exn :=
| Error (message : js_string)     (* [new Error(message)] *)
| NotAnError.                     (* any thrown value that is not an [Error] *)

Definition result (A : Type) := sum exn A.

End Js.

Import Js.

(* ===================================================================== *)
(** * lib/audio/groq.ts: the merger *)
(* ===================================================================== *)

Record TranscriptionSegment := {
  id : number;
  start : number;
  end_ : number;
  text : js_string;
  tokens : list number;
  temperature : number;
  avg_logprob : number;
  compression_ratio : number;
  no_speech_prob : number;
}.

Record TranscriptionResponse := {
  r_text : js_string;
  segments : list TranscriptionSegment;
  language : js_string;
}.

(** [{ ...segment, start: segment.start + timeOffset,
                   end:   segment.end   + timeOffset }] *)
Definition adjustSegment (timeOffset : number) (segment : TranscriptionSegment)
  : TranscriptionSegment :=
  {| id := id segment;
     start := add (start segment) timeOffset;
     end_ := add (end_ segment) timeOffset;
     text := text segment;
     tokens := tokens segment;
     temperature := temperature segment;
     avg_logprob := avg_logprob segment;
     compression_ratio := compression_ratio segment;
     no_speech_prob := no_speech_prob segment |}.

(** The three variables the [forEach] callback of [combineTranscriptions]
    updates. *)
Record CombineState := {
  combinedText : js_string;
  combinedSegments : list TranscriptionSegment;
  timeOffset : number;
}.

Definition combineInit : CombineState :=
  {| combinedText := []; combinedSegments := []; timeOffset := zero |}.

(** One call of the [forEach] callback. *)
Definition combineStep (st : CombineState) (index : nat)
    (transcription : TranscriptionResponse) : CombineState :=
  let combinedText1 :=
    if (0 <? index)%nat then combinedText st ++ lit " " else combinedText st in
  let combinedText2 := combinedText1 ++ r_text transcription in
  let adjustedSegments :=
    map (adjustSegment (timeOffset st)) (segments transcription) in
  {| combinedText := combinedText2;
     combinedSegments := combinedSegments st ++ adjustedSegments;
     timeOffset :=
       if (0 <? length (segments transcription))%nat then
         match nth_error (segments transcription)
                 (length (segments transcription) - 1) with
         | Some last_segment => end_ last_segment
         | None => timeOffset st     (* not reached: the index is in range *)
         end
       else timeOffset st |}.

(** [transcriptions.forEach((transcription, index) => ...)], from [index]. *)
Fixpoint combineLoop (st : CombineState) (index : nat)
    (transcriptions : list TranscriptionResponse) : CombineState :=
  match transcriptions with
  | [] => st
  | transcription :: rest =>
      combineLoop (combineStep st index transcription) (S index) rest
  end.

Definition combineTranscriptions (transcriptions : list TranscriptionResponse)
  : result TranscriptionResponse :=
  match transcriptions with
  | [] => inl (Error (lit "No transcriptions to combine"))
  | [only] => inr only
  | first :: _ =>
      let st := combineLoop combineInit 0 transcriptions in
      inr {| r_text := trim (combinedText st);
             segments := combinedSegments st;
             language := language first |}
  end.

(* ===================================================================== *)
(** * lib/audio/processor.ts: the chunker *)
(* ===================================================================== *)

(** A [Blob]: its bytes and its MIME type.  A [File] is a [Blob] with a
    name. *)
Record Blob := {
  blob_bytes : list byte;
  blob_type : js_string;
}.

Record File := {
  file_bytes : list byte;
  file_type : js_string;
  file_name : js_string;
}.

(** A [File] used where a [Blob] is expected. *)
Definition blob_of_file (file : File) : Blob :=
  {| blob_bytes := file_bytes file; blob_type := file_type file |}.

(** [new File([blob], filename, { type: blob.type })] *)
Definition blobToFile (blob : Blob) (filename : js_string) : File :=
  {| file_bytes := blob_bytes blob;
     file_type := blob_type blob;
     file_name := filename |}.

Definition byteLength (buffer : list byte) : N := N.of_nat (length buffer).

Definition blob_size (blob : Blob) : N := byteLength (blob_bytes blob).
Definition file_size (file : File) : N := byteLength (file_bytes file).

(** [buffer.slice(first, final)] for non-negative integer arguments: both
    are clamped to the length, and the result is empty when
    [final <= first]. *)
Definition slice (buffer : list byte) (first final : N) : list byte :=
  firstn (N.to_nat (final - first)) (skipn (N.to_nat first) buffer).

Record ProcessedAudio := {
  chunks : list Blob;
  fileName : js_string;
  fileType : js_string;
  totalSize : N;
}.

Definition MAX_FILE_SIZE : N := 500 * 1024 * 1024.
Definition MAX_CHUNK_SIZE : N := 20 * 1024 * 1024.
Definition GROQ_SIZE_LIMIT : N := 25 * 1024 * 1024.

(** A value together with the equation that says what it is, so that the
    test of a loop is known in the branch it selects. *)
Definition inspect {A : Type} (a : A) : { b : A | a = b } :=
  exist _ a eq_refl.

(** The [while (offset < buffer.byteLength)] loop of [processAudioFile];
    [type] is [file.type], and [chunks] the array built so far. *)
Equations? chunkLoop (type : js_string) (buffer : list byte) (offset : N)
    (chunks : list Blob) : list Blob
  by wf (N.to_nat (byteLength buffer - offset)) lt :=
  chunkLoop type buffer offset chunks
    with inspect (offset <? byteLength buffer)%N => {
    | exist _ true _ =>
        let chunkSize := N.min MAX_CHUNK_SIZE (byteLength buffer - offset) in
        let chunk := slice buffer offset (offset + chunkSize) in
        chunkLoop type buffer (offset + chunkSize)
          (chunks ++ [ {| blob_bytes := chunk; blob_type := type |} ]);
    | exist _ false _ => chunks }.
Proof.
  apply N.ltb_lt in e. subst chunkSize.
  assert (0 < MAX_CHUNK_SIZE)%N by reflexivity. lia.
Qed.

Definition processAudioFile (file : File) : result ProcessedAudio :=
  if (MAX_FILE_SIZE <? file_size file)%N then
    inl (Error (lit "File size exceeds maximum limit of "
                  ++ string_of_N (MAX_FILE_SIZE / (1024 * 1024)) ++ lit "MB"))
  else if (file_size file <=? GROQ_SIZE_LIMIT)%N then
    inr {| chunks := [blob_of_file file];
           fileName := file_name file;
           fileType := file_type file;
           totalSize := file_size file |}
  else
    inr {| chunks := chunkLoop (file_type file) (file_bytes file) 0 [];
           fileName := file_name file;
           fileType := file_type file;
           totalSize := file_size file |}.

(* ===================================================================== *)
(** * Calls that leave the process, and the trace of them *)
(* ===================================================================== *)

(** What [groq.audio.transcriptions.create] can do with one file. *)
Inductive GroqOutcome :=
| GroqReturns (transcription : TranscriptionResponse)
| GroqThrowsError (message : js_string)
| GroqThrowsOther.

(** The row [getUserWithTeam] finds for a user; [teamId] is [None] for
    [null]. *)
Record UserWithTeam := {
  teamId : option Z;
}.

(** The object handed to [saveTranscription]. *)
Record TranscriptionData := {
  d_teamId : Z;
  d_userId : Z;
  d_fileName : js_string;
  d_originalText : js_string;
  d_segments : list TranscriptionSegment;
  d_duration : number;
  d_language : js_string;
  d_fileType : js_string;
  d_fileSize : N;
  d_status : js_string;
  d_errorLog : option js_string;
}.

Inductive call :=
| CallGetUserWithTeam (userId : Z)
| CallGroq (file : File)
| CallSaveTranscription (data : TranscriptionData).

(** An [async] computation: the calls it made, in order, and how it ended. *)
Definition action (A : Type) : Type := list call * result A.

Definition ret {A} (a : A) : action A := ([], inr a).

Definition throw {A} (e : exn) : action A := ([], inl e).

Definition bind {A B} (m : action A) (f : A -> action B) : action B :=
  match m with
  | (t, inl e) => (t, inl e)
  | (t, inr a) => let (t', r) := f a in (t ++ t', r)
  end.

(** [try { m } catch (error) { handler error }] *)
Definition try_catch {A} (m : action A) (handler : exn -> action A)
  : action A :=
  match m with
  | (t, inl e) => let (t', r) := handler e in (t ++ t', r)
  | (t, inr a) => (t, inr a)
  end.

(** A synchronous function that may throw, called from an [async] one. *)
Definition lift {A} (r : result A) : action A := ([], r).

Declare Scope action_scope.
Delimit Scope action_scope with action.
Notation "x <- m ;; k" := (bind m (fun x => k))
  (at level 61, m at next level, right associativity) : action_scope.
Notation "' p <- m ;; k" := (bind m (fun x => let 'p := x in k))
  (at level 61, p pattern, m at next level, right associativity)
  : action_scope.

(** [error instanceof Error ? error.message : fallback] *)
Definition message_or (fallback : js_string) (error : exn) : js_string :=
  match error with
  | Error message => message
  | NotAnError => fallback
  end.

(* ===================================================================== *)
(** * lib/audio/groq.ts: the provider client; the submission handler *)
(* ===================================================================== *)

Section Handler.

(** The record the store returns once a transcription is saved. *)
Variable Row : Type.

(** [getUserWithTeam], [groq.audio.transcriptions.create] and
    [saveTranscription]; [undefined] from the first is [None].  Within one
    submission the provider is called with a different file name for each
    chunk, so a function of the file can give each call its own outcome. *)
Variable getUserWithTeam : Z -> result (option UserWithTeam).
Variable groq_create : File -> GroqOutcome.
Variable saveTranscription : TranscriptionData -> result Row.

(** [x => Number(x.toFixed(3))] *)
Variable toFixed3 : number -> number.

Definition transcribeAudio (audioBlob : Blob) (filename : js_string)
  : action TranscriptionResponse :=
  let audioFile := blobToFile audioBlob filename in
  ([CallGroq audioFile],
   match groq_create audioFile with
   | GroqReturns transcription => inr transcription
   | GroqThrowsError message => inl (Error message)
   | GroqThrowsOther => inl (Error (lit "Unknown transcription error"))
   end).

Record TranscriptionActionResponse := {
  error : option js_string;
  success : option js_string;
  transcription : option Row;
}.

(** [`chunk_${i}_${processedAudio.fileName}`] *)
Definition chunkName (i : nat) (fileName : js_string) : js_string :=
  lit "chunk_" ++ string_of_index i ++ lit "_" ++ fileName.

(** [`Failed to transcribe segment ${i + 1}: ${...}`] *)
Definition chunkFailure (i : nat) (error : exn) : js_string :=
  lit "Failed to transcribe segment " ++ string_of_index (i + 1)
    ++ lit ": " ++ message_or (lit "Unknown error") error.

(** The [for (let i = 0; i < totalChunks; i++)] loop, from index [i], over
    the chunks not yet visited; [transcriptionResults] and [errors] are the
    two arrays it fills. *)
Fixpoint transcribeChunks (fileName : js_string) (remaining : list Blob)
    (i : nat) (transcriptionResults : list TranscriptionResponse)
    (errors : list js_string)
  : action (list TranscriptionResponse * list js_string) :=
  match remaining with
  | [] => ret (transcriptionResults, errors)
  | chunk :: remaining' =>
      (' (transcriptionResults', errors') <-
         try_catch
           (result <- transcribeAudio chunk (chunkName i fileName) ;;
            ret (transcriptionResults ++ [result], errors))
           (fun error =>
              ret (transcriptionResults, errors ++ [chunkFailure i error])) ;;
       transcribeChunks fileName remaining' (S i)
         transcriptionResults' errors')%action
  end.

(** [!userWithTeam?.teamId] is false exactly when there is a row whose
    [teamId] is a number other than 0. *)
Definition team_of (userWithTeam : option UserWithTeam) : option Z :=
  match userWithTeam with
  | Some u =>
      match teamId u with
      | Some t => if Z.eqb t 0 then None else Some t
      | None => None
      end
  | None => None
  end.

(** [segments.length > 0 ? Math.max(...segments.map(s => s.end)) : 0] *)
Definition totalDuration (segments : list TranscriptionSegment) : number :=
  if (0 <? length segments)%nat then Math_max (map end_ segments)
  else zero.

Definition transcriptionData (team user : Z)
    (processedAudio : ProcessedAudio)
    (combinedTranscription : TranscriptionResponse)
    (errors : list js_string) : TranscriptionData :=
  let duration := totalDuration (segments combinedTranscription) in
  {| d_teamId := team;
     d_userId := user;
     d_fileName := fileName processedAudio;
     d_originalText := r_text combinedTranscription;
     d_segments :=
       map (fun segment =>
              {| id := id segment;
                 start := toFixed3 (start segment);
                 end_ := toFixed3 (end_ segment);
                 text := text segment;
                 tokens := tokens segment;
                 temperature := temperature segment;
                 avg_logprob := avg_logprob segment;
                 compression_ratio := compression_ratio segment;
                 no_speech_prob := no_speech_prob segment |})
           (segments combinedTranscription);
     d_duration := Math_round duration;
     d_language := language combinedTranscription;
     d_fileType := fileType processedAudio;
     d_fileSize := totalSize processedAudio;
     d_status :=
       if (0 <? length errors)%nat then lit "partial" else lit "complete";
     d_errorLog :=
       if (0 <? length errors)%nat then Some (join newline errors)
       else None |}.

(** The handler given to [validatedActionWithUser]: [file] is [data.file]
    and [userId] is [user.id].  The [console.error] calls are left out. *)
Definition processTranscription (file : File) (userId : Z)
  : action TranscriptionActionResponse :=
  try_catch
    (userWithTeam <- ([CallGetUserWithTeam userId], getUserWithTeam userId) ;;
     match team_of userWithTeam with
     | None =>
         ret {| error := Some (lit "User is not part of a team");
                success := None;
                transcription := None |}
     | Some team =>
         processedAudio <- lift (processAudioFile file) ;;
         ' (transcriptionResults, errors) <-
           transcribeChunks (fileName processedAudio)
             (chunks processedAudio) 0 [] [] ;;
         if (length transcriptionResults =? 0)%nat then
           throw (Error (lit "Failed to transcribe any part of the audio file"))
         else
           combinedTranscription <-
             lift (combineTranscriptions transcriptionResults) ;;
           let data :=
             transcriptionData team userId processedAudio
               combinedTranscription errors in
           saved <- ([CallSaveTranscription data], saveTranscription data) ;;
           ret {| success :=
                    Some (if (0 <? length errors)%nat
                          then lit "Transcription completed with some errors"
                          else lit "Transcription completed successfully");
                  transcription := Some saved;
                  error :=
                    if (0 <? length errors)%nat
                    then Some (join newline errors)
                    else None |}
     end)%action
    (fun error =>
       ret {| error :=
                Some (message_or
                        (lit "Failed to process transcription. Please try again.")
                        error);
              success := None;
              transcription := None |}).

End Handler.

(* ===================================================================== *)
(** * The vocabulary of the properties *)
(* ===================================================================== *)

(** Where chunk [i] starts in the payload: the bytes of the chunks before
    it. *)
Definition chunk_offset (chunks : list Blob) (i : nat) : N :=
  byteLength (concat (map blob_bytes (firstn i chunks))).

(** The merger in the words of the specification: the running offset after
    a chunk is the end of that chunk's own last segment, or the offset
    before it when the chunk has no segment; the combined segments are each
    chunk's segments, in order, moved by the offset in force for the chunk. *)
Definition next_offset (offset : number) (t : TranscriptionResponse) : number :=
  match rev (segments t) with
  | last_segment :: _ => end_ last_segment
  | [] => offset
  end.

Fixpoint rebased (offset : number) (l : list TranscriptionResponse)
  : list TranscriptionSegment :=
  match l with
  | [] => []
  | t :: rest =>
      map (adjustSegment offset) (segments t)
        ++ rebased (next_offset offset t) rest
  end.

(** Two numbers that [===] cannot tell apart, NaN counted equal to itself:
    the same value, or two zeros. *)
Definition same_number (x y : number) : Prop :=
  x = y \/ exists s s', x = S754_zero s /\ y = S754_zero s'.

(** Every field other than [start] and [end] agrees. *)
Definition same_frame (a b : TranscriptionSegment) : Prop :=
  id a = id b /\ text a = text b /\ tokens a = tokens b
  /\ temperature a = temperature b /\ avg_logprob a = avg_logprob b
  /\ compression_ratio a = compression_ratio b
  /\ no_speech_prob a = no_speech_prob b.

(** Rebasing in the words of the specification: [moved] is [original]
    rebased by [offset] when its start and its end are the original's plus
    the offset and every other field is the original's. *)
Definition rebased_by (offset : number) (original moved : TranscriptionSegment)
  : Prop :=
  start moved = add (start original) offset
  /\ end_ moved = add (end_ original) offset
  /\ same_frame moved original.

(** The segments of the chunks as the provider gave them, in input order,
    each with the running offset of its chunk. *)
Fixpoint with_offsets (offset : number) (l : list TranscriptionResponse)
  : list (number * TranscriptionSegment) :=
  match l with
  | [] => []
  | t :: rest =>
      map (pair offset) (segments t) ++ with_offsets (next_offset offset t) rest
  end.

(** A time that is not the negative zero. *)
Definition not_negative_zero (x : number) : Prop := x <> S754_zero true.

(** Rounding in the words of the specification.  A finite number
    [S754_finite s m e] is the fraction [signed s m * 2 ^ e]; the
    inequalities below are that fraction's, cleared of denominators.
    [is_whole x n]: the number [x] is the integer [n].
    [nearest_whole x n]: the integer [n] is nearest to the number [x], that
    is [n - 1/2 <= x < n + 1/2] (the larger integer when two are as near).
    [rounds_to x rounded]: [rounded] is [x] rounded to the nearest whole
    number; an infinity and NaN have no nearest whole number and stay. *)
Definition signed (s : bool) (m : positive) : Z :=
  if s then Zneg m else Zpos m.

Definition is_whole (x : number) (n : Z) : Prop :=
  match x with
  | S754_zero _ => n = 0%Z
  | S754_finite s m e =>
      (signed s m * 2 ^ Z.max 0 e = n * 2 ^ Z.max 0 (- e))%Z
  | _ => False
  end.

Definition nearest_whole (x : number) (n : Z) : Prop :=
  match x with
  | S754_zero _ => n = 0%Z
  | S754_finite s m e =>
      ((2 * n - 1) * 2 ^ Z.max 0 (- e)
       <= 2 * signed s m * 2 ^ Z.max 0 e
       < (2 * n + 1) * 2 ^ Z.max 0 (- e))%Z
  | _ => False
  end.

Definition rounds_to (x rounded : number) : Prop :=
  match x with
  | S754_nan | S754_infinity _ => rounded = x
  | _ => exists n, is_whole rounded n /\ nearest_whole x n
  end.

(** The handler in the words of the specification: one outcome per chunk,
    then the successes and the failures, each in chunk order. *)
Definition outcome_of (groq_create : File -> GroqOutcome) (fileName : js_string)
    (i : nat) (chunk : Blob) : result TranscriptionResponse :=
  snd (transcribeAudio groq_create chunk (chunkName i fileName)).

Fixpoint successes_from (groq_create : File -> GroqOutcome)
    (fileName : js_string) (i : nat) (remaining : list Blob)
  : list TranscriptionResponse :=
  match remaining with
  | [] => []
  | chunk :: remaining' =>
      match outcome_of groq_create fileName i chunk with
      | inr t => t :: successes_from groq_create fileName (S i) remaining'
      | inl _ => successes_from groq_create fileName (S i) remaining'
      end
  end.

Fixpoint failures_from (groq_create : File -> GroqOutcome)
    (fileName : js_string) (i : nat) (remaining : list Blob)
  : list js_string :=
  match remaining with
  | [] => []
  | chunk :: remaining' =>
      match outcome_of groq_create fileName i chunk with
      | inr _ => failures_from groq_create fileName (S i) remaining'
      | inl e =>
          chunkFailure i e
            :: failures_from groq_create fileName (S i) remaining'
      end
  end.

Fixpoint groq_calls (fileName : js_string) (i : nat) (remaining : list Blob)
  : list call :=
  match remaining with
  | [] => []
  | chunk :: remaining' =>
      CallGroq (blobToFile chunk (chunkName i fileName))
        :: groq_calls fileName (S i) remaining'
  end.

Definition is_save (c : call) : bool :=
  match c with CallSaveTranscription _ => true | _ => false end.

(* ===================================================================== *)
(** * Sample inputs *)
(* ===================================================================== *)

(** A payload of [n] zero bytes, for the examples: the sizes at which the
    chunker changes behaviour are tens of mebibytes. *)
Definition zeros (n : N) : list byte := N.iter n (cons x00) [].

Definition zero_file (n : N) : File :=
  {| file_bytes := zeros n;
     file_type := lit "audio/mpeg";
     file_name := lit "a.mp3" |}.

(** The byte range of a file from [first] to [final], as a chunk. *)
Definition file_range (file : File) (first final : N) : Blob :=
  {| blob_bytes := slice (file_bytes file) first final;
     blob_type := file_type file |}.

(** What the chunker makes of a file of more than two and at most three
    full chunks. *)
Definition three_chunks (file : File) : ProcessedAudio :=
  {| chunks := [ file_range file 0 MAX_CHUNK_SIZE;
                 file_range file MAX_CHUNK_SIZE (2 * MAX_CHUNK_SIZE);
                 file_range file (2 * MAX_CHUNK_SIZE) (file_size file) ];
     fileName := file_name file;
     fileType := file_type file;
     totalSize := file_size file |}.

(** What it makes of a file of at most 25 MiB. *)
Definition one_chunk (file : File) : ProcessedAudio :=
  {| chunks := [blob_of_file file];
     fileName := file_name file;
     fileType := file_type file;
     totalSize := file_size file |}.

(** A file of 45 MiB. *)
Abbreviation big_file := (zero_file (45 * 1024 * 1024)).

(** Two sample transcripts: one that says "a b" in ten seconds, one that
    says "c" in two. *)
Definition sample_segment (n first final : Z) (words : string)
  : TranscriptionSegment :=
  {| id := of_Z n; start := of_Z first; end_ := of_Z final;
     text := lit words; tokens := [of_Z 7]; temperature := zero;
     avg_logprob := zero; compression_ratio := of_Z 1;
     no_speech_prob := zero |}.

Definition sample_a : TranscriptionResponse :=
  {| r_text := lit "a b";
     segments := [sample_segment 0 0 4 "a"; sample_segment 1 4 10 "b"];
     language := lit "en" |}.

Definition sample_b : TranscriptionResponse :=
  {| r_text := lit "c";
     segments := [sample_segment 0 0 2 "c"];
     language := lit "en" |}.

Definition sample_silent : TranscriptionResponse :=
  {| r_text := []; segments := []; language := lit "en" |}.

(** A transcript whose only segment starts at [-0], and one whose only
    segment ends after two seconds and a half. *)
Definition sample_negative_zero : TranscriptionResponse :=
  {| r_text := lit "a";
     segments :=
       [ {| id := of_Z 0; start := S754_zero true; end_ := of_Z 4;
            text := lit "a"; tokens := [of_Z 7]; temperature := zero;
            avg_logprob := zero; compression_ratio := of_Z 1;
            no_speech_prob := zero |} ];
     language := lit "en" |}.

Definition sample_half : TranscriptionResponse :=
  {| r_text := lit "d";
     segments :=
       [ {| id := of_Z 0; start := zero;
            end_ := SFdiv prec emax (of_Z 5) (of_Z 2);
            text := lit "d"; tokens := [of_Z 7]; temperature := zero;
            avg_logprob := zero; compression_ratio := of_Z 1;
            no_speech_prob := zero |} ];
     language := lit "en" |}.

(** A transcript whose text begins with a space, as the provider writes
    them. *)
Definition sample_a_padded : TranscriptionResponse :=
  {| r_text := lit " a b";
     segments := segments sample_a;
     language := lit "en" |}.

Fixpoint string_eqb (a b : js_string) : bool :=
  match a, b with
  | [], [] => true
  | x :: a', y :: b' => N.eqb x y && string_eqb a' b'
  | _, _ => false
  end.

(** Every user belongs to team 1; the store accepts every record. *)
Definition sample_user (userId : Z) : result (option UserWithTeam) :=
  inr (Some {| teamId := Some 1%Z |}).

Definition sample_save (data : TranscriptionData) : result unit := inr tt.

(** A provider that is down, one that transcribes everything, and one that
    fails on the second chunk of [a.mp3] only. *)
Definition groq_down (file : File) : GroqOutcome :=
  GroqThrowsError (lit "Service unavailable").

Definition groq_up (file : File) : GroqOutcome := GroqReturns sample_a.

(** A provider that answers [sample_half]. *)
Definition groq_half (file : File) : GroqOutcome := GroqReturns sample_half.

Definition groq_flaky (file : File) : GroqOutcome :=
  if string_eqb (file_name file) (lit "chunk_1_a.mp3")
  then GroqThrowsError (lit "Request timed out")
  else GroqReturns sample_b.

(* ===================================================================== *)
(** * The server actions: the validation schema and the other actions *)
(* ===================================================================== *)

(** The constants of the actions file; its [MAX_FILE_SIZE] is declared apart
    from the chunker's. *)
Module Actions.

Definition ALLOWED_AUDIO_TYPES : list js_string :=
  [ lit "audio/mpeg"; lit "audio/wav"; lit "audio/mp4"; lit "audio/x-m4a";
    lit "audio/mpeg"; lit "audio/webm"; lit "audio/x-aiff"; lit "audio/aac";
    lit "audio/ogg" ].

Definition MAX_FILE_SIZE : N := 500 * 1024 * 1024.

End Actions.

(** [ALLOWED_AUDIO_TYPES.includes(file.type)] *)
Definition type_is_allowed (file : File) : bool :=
  existsb (string_eqb (file_type file)) Actions.ALLOWED_AUDIO_TYPES.

(** [file.size <= MAX_FILE_SIZE] *)
Definition size_is_allowed (file : File) : bool :=
  (file_size file <=? Actions.MAX_FILE_SIZE)%N.

(** [transcriptionSchema] on a [File]: the messages of the refinements that
    fail, in the order of the schema; the schema accepts the file when there
    is none.  A refinement that fails does not stop the next one. *)
Definition transcriptionSchema (file : File) : list js_string :=
  (if type_is_allowed file then []
   else [lit "Invalid file type. Please upload a supported audio file (MP3, WAV, MP4, M4A, etc.)."])
  ++ (if size_is_allowed file then []
      else [lit "File size too large. Maximum size is "
              ++ string_of_N (Actions.MAX_FILE_SIZE / (1024 * 1024))
              ++ lit "MB."]).

(** What the three other actions answer. *)
Record StatusResponse := {
  a_error : option js_string;
  a_success : option js_string;
}.

Section OtherActions.

Variable getUserWithTeam : Z -> result (option UserWithTeam).

(** The handlers of [getTranscriptionStatus], [deleteTranscription] and
    [updateTranscription]: [transcriptionId] is [data.transcriptionId],
    [name] and [notes] are the optional fields of [data.metadata], and
    [userId] is [user.id].  The user is looked up outside the [try]. *)
Definition getTranscriptionStatus (transcriptionId : number) (userId : Z)
  : action StatusResponse :=
  (userWithTeam <- ([CallGetUserWithTeam userId], getUserWithTeam userId) ;;
   match team_of userWithTeam with
   | None =>
       ret {| a_error := Some (lit "User is not part of a team");
              a_success := None |}
   | Some _ =>
       try_catch
         (ret {| a_success := Some (lit "Status retrieved successfully");
                 a_error := None |})
         (fun error =>
            ret {| a_error := Some (lit "Failed to retrieve transcription status");
                   a_success := None |})
   end)%action.

Definition deleteTranscription (transcriptionId : number) (userId : Z)
  : action StatusResponse :=
  (userWithTeam <- ([CallGetUserWithTeam userId], getUserWithTeam userId) ;;
   match team_of userWithTeam with
   | None =>
       ret {| a_error := Some (lit "User is not part of a team");
              a_success := None |}
   | Some _ =>
       try_catch
         (ret {| a_success := Some (lit "Transcription deleted successfully");
                 a_error := None |})
         (fun error =>
            ret {| a_error := Some (lit "Failed to delete transcription");
                   a_success := None |})
   end)%action.

Definition updateTranscription (transcriptionId : number)
    (name notes : option js_string) (userId : Z) : action StatusResponse :=
  (userWithTeam <- ([CallGetUserWithTeam userId], getUserWithTeam userId) ;;
   match team_of userWithTeam with
   | None =>
       ret {| a_error := Some (lit "User is not part of a team");
              a_success := None |}
   | Some _ =>
       try_catch
         (ret {| a_success := Some (lit "Transcription updated successfully");
                 a_error := None |})
         (fun error =>
            ret {| a_error := Some (lit "Failed to update transcription");
                   a_success := None |})
   end)%action.

End OtherActions.

(* ===================================================================== *)
(** * transcription.tsx: the player *)
(* ===================================================================== *)

Module View.

(** Modelled from the spec: the row type [Transcription] of [lib/db/schema],
    which is not among the sources.  Of the persisted record the component
    reads the file name, the segments (a JSON column that may be [null]) and
    the duration (an integer number of seconds). *)
Record Transcription := {
  fileName : js_string;
  segments : option (list TranscriptionSegment);
  duration : number;
}.

(** [x >= y] on numbers. *)
Definition geb (x y : number) : bool := SFleb y x.

(** [x === y] on numbers. *)
Definition strict_equal (x y : number) : bool := SFeqb x y.

(** Whether [x || 0] is [x]: a number is falsy when it is a zero or NaN. *)
Definition truthy (x : number) : bool :=
  match x with
  | S754_zero _ | S754_nan => false
  | _ => true
  end.

(** [selectedTranscription || state.transcription] *)
Definition currentTranscription
    (selectedTranscription stateTranscription : option Transcription)
  : option Transcription :=
  match selectedTranscription with
  | Some t => Some t
  | None => stateTranscription
  end.

(** [getCurrentSegment]; [null] and [undefined] are [None]. *)
Definition getCurrentSegment
    (selectedTranscription stateTranscription : option Transcription)
    (currentTime : number) : option TranscriptionSegment :=
  match currentTranscription selectedTranscription stateTranscription with
  | None => None
  | Some t =>
      match segments t with
      | None => None
      | Some segs =>
          find (fun segment =>
                  geb currentTime (start segment)
                  && leb currentTime (end_ segment))
               segs
      end
  end.

(** [getCurrentSegment()?.start === segment.start], the test that gives a
    segment its highlight. *)
Definition highlighted
    (selectedTranscription stateTranscription : option Transcription)
    (currentTime : number) (segment : TranscriptionSegment) : bool :=
  match getCurrentSegment selectedTranscription stateTranscription currentTime with
  | Some current => strict_equal (start current) (start segment)
  | None => false
  end.

(** [(currentTime / (currentTranscription.duration || 0)) * 100], the width
    of the progress bar in per cent. *)
Definition progressWidth (currentTime duration : number) : number :=
  SFmul prec emax
    (SFdiv prec emax currentTime (if truthy duration then duration else zero))
    (of_Z 100).

(** [TranscriptionState], the state of the form. *)
Record TranscriptionState := {
  error : option js_string;
  success : option js_string;
  transcription : option Transcription;
}.

(** The state of the component: its five [useState] cells and the state of
    the form. *)
Record State := {
  audioFile : option File;
  isPlaying : bool;
  currentTime : number;
  selectedTranscription : option Transcription;
  audioUrl : option js_string;
  state : TranscriptionState;
}.

Definition initial : State :=
  {| audioFile := None;
     isPlaying := false;
     currentTime := zero;
     selectedTranscription := None;
     audioUrl := None;
     state := {| error := Some []; success := Some []; transcription := None |} |}.

(** What the handlers ask of the browser: the two calls on [URL], and on the
    audio element the assignments to [src] and [currentTime] and the calls of
    [play] and [pause]. *)
Inductive effect :=
| RevokeObjectURL (url : js_string)
| CreateObjectURL (file : File) (url : js_string)
| SetSrc (url : js_string)
| SetCurrentTime (time : number)
| Play
| Pause.

(** What can happen to the component: the user picks a file (or none),
    picks an entry of the history, presses the play button or clicks a
    segment; the audio element reports its time or its end; the form action
    answers.  [present] says whether [audioRef.current] is set, [url] is what
    [URL.createObjectURL] returns, [time] what the element reports ([None]
    when [audioRef.current] is not set). *)
Inductive event :=
| FileChange (file : option File) (url : js_string) (present : bool)
| TranscriptionSelect (transcription : Transcription) (present : bool)
| TogglePlayPause (present : bool)
| SegmentClick (segment : TranscriptionSegment) (present : bool)
| TimeUpdate (time : option number)
| Ended
| FormAnswer (answer : TranscriptionState).

(** [if (audioUrl)]: a string is truthy when it is not empty. *)
Definition url_truthy (url : option js_string) : bool :=
  match url with
  | Some (_ :: _) => true
  | _ => false
  end.

(** One handler call: the next state and what was asked of the browser, in
    order. *)
Definition step (st : State) (e : event) : State * list effect :=
  match e with
  | FileChange None _ _ => (st, [])
  | FileChange (Some file) url present =>
      ({| audioFile := Some file;
          isPlaying := isPlaying st;
          currentTime := currentTime st;
          selectedTranscription := selectedTranscription st;
          audioUrl := Some url;
          state := state st |},
       match audioUrl st with
       | Some old => if url_truthy (audioUrl st) then [RevokeObjectURL old] else []
       | None => []
       end
       ++ [CreateObjectURL file url]
       ++ (if present then [SetSrc url] else []))
  | TranscriptionSelect transcription present =>
      ({| audioFile := audioFile st;
          isPlaying := isPlaying st;
          currentTime := zero;
          selectedTranscription := Some transcription;
          audioUrl := audioUrl st;
          state := state st |},
       if present then [SetCurrentTime zero] else [])
  | TogglePlayPause false => (st, [])
  | TogglePlayPause true =>
      ({| audioFile := audioFile st;
          isPlaying := negb (isPlaying st);
          currentTime := currentTime st;
          selectedTranscription := selectedTranscription st;
          audioUrl := audioUrl st;
          state := state st |},
       [if isPlaying st then Pause else Play])
  | SegmentClick segment present =>
      (st, if present then [SetCurrentTime (start segment)] else [])
  | TimeUpdate None => (st, [])
  | TimeUpdate (Some time) =>
      ({| audioFile := audioFile st;
          isPlaying := isPlaying st;
          currentTime := time;
          selectedTranscription := selectedTranscription st;
          audioUrl := audioUrl st;
          state := state st |},
       [])
  | Ended =>
      ({| audioFile := audioFile st;
          isPlaying := false;
          currentTime := currentTime st;
          selectedTranscription := selectedTranscription st;
          audioUrl := audioUrl st;
          state := state st |},
       [])
  | FormAnswer answer =>
      ({| audioFile := audioFile st;
          isPlaying := isPlaying st;
          currentTime := currentTime st;
          selectedTranscription := selectedTranscription st;
          audioUrl := audioUrl st;
          state := answer |},
       [])
  end.

(** A sequence of events, from a state. *)
Fixpoint run (st : State) (events : list event) : State * list effect :=
  match events with
  | [] => (st, [])
  | e :: events' =>
      let (st1, effects1) := step st e in
      let (st2, effects2) := run st1 events' in
      (st2, effects1 ++ effects2)
  end.

(** The transcription on display in a state, and the segment under the
    play head. *)
Definition shown (st : State) : option Transcription :=
  currentTranscription (selectedTranscription st) (transcription (state st)).

End View.

(* ===================================================================== *)
(** * More vocabulary *)
(* ===================================================================== *)

Definition is_groq (c : call) : bool :=
  match c with CallGroq _ => true | _ => false end.

(** The object URLs that were created and not revoked, after a list of
    requests to the browser. *)
Fixpoint remove_first (url : js_string) (urls : list js_string)
  : list js_string :=
  match urls with
  | [] => []
  | u :: urls' => if string_eqb url u then urls' else u :: remove_first url urls'
  end.

Definition live_step (urls : list js_string) (e : View.effect)
  : list js_string :=
  match e with
  | View.CreateObjectURL _ url => urls ++ [url]
  | View.RevokeObjectURL url => remove_first url urls
  | _ => urls
  end.

Definition live_urls (effects : list View.effect) : list js_string :=
  fold_left live_step effects [].

(** The events that pick an entry of the history, and the URLs the browser
    hands out in a list of events. *)
Definition is_select (e : View.event) : bool :=
  match e with View.TranscriptionSelect _ _ => true | _ => false end.

Definition fresh_url_ok (e : View.event) : bool :=
  match e with
  | View.FileChange (Some _) [] _ => false
  | _ => true
  end.

(* ===================================================================== *)
(** * More sample inputs *)
(* ===================================================================== *)

(** A user whose team id is 0, and a store that is down. *)
Definition sample_user_team_0 (userId : Z) : result (option UserWithTeam) :=
  inr (Some {| teamId := Some 0%Z |}).

Definition sample_save_down (data : TranscriptionData) : result unit :=
  inl (Error (lit "relation does not exist")).

(** A stored transcription with the segments of [sample_a], and the state
    of the player once it is picked from the history. *)
Definition stored_a : View.Transcription :=
  {| View.fileName := lit "a.mp3";
     View.segments := Some (segments sample_a);
     View.duration := of_Z 10 |}.

Definition state_with_a : View.State :=
  fst (View.step View.initial (View.TranscriptionSelect stored_a true)).

(** A file of 500 MiB and one byte. *)
Abbreviation huge_file := (zero_file (500 * 1024 * 1024 + 1)).

(** The record that goes to the store when user 7, of team 1, submits the
    three-byte file and the provider answers [sample_a]. *)
Definition sample_data : TranscriptionData :=
  transcriptionData (fun x => x) 1 7 (one_chunk (zero_file 3)) sample_a [].

(* ===================================================================== *)
(** * The chunker *)
(* ===================================================================== *)

Lemma length_zeros n : length (zeros n) = N.to_nat n.
Proof.
  unfold zeros. induction n using N.peano_ind.
  - reflexivity.
  - rewrite N.iter_succ, N2Nat.inj_succ. simpl. now rewrite IHn.
Qed.

Lemma byteLength_zeros n : byteLength (zeros n) = n.
Proof. unfold byteLength. now rewrite length_zeros, N2Nat.id. Qed.

Lemma file_size_zero_file n : file_size (zero_file n) = n.
Proof. apply byteLength_zeros. Qed.

(** The loop, as one equation. *)
Lemma chunkLoop_eq type buffer offset chunks :
  chunkLoop type buffer offset chunks =
  if (offset <? byteLength buffer)%N then
    let chunkSize := N.min MAX_CHUNK_SIZE (byteLength buffer - offset) in
    chunkLoop type buffer (offset + chunkSize)
      (chunks ++ [ {| blob_bytes := slice buffer offset (offset + chunkSize);
                      blob_type := type |} ])
  else chunks.
Proof.
  simp chunkLoop.
  generalize (inspect (offset <? byteLength buffer)%N).
  intros [[] e]; simp chunkLoop; rewrite e; reflexivity.
Qed.

Lemma MAX_CHUNK_SIZE_pos : (0 < MAX_CHUNK_SIZE)%N.
Proof. reflexivity. Qed.

Lemma byteLength_slice buffer offset size :
  (offset + size <= byteLength buffer)%N ->
  byteLength (slice buffer offset (offset + size)) = size.
Proof.
  unfold byteLength, slice. intros H.
  rewrite length_firstn, length_skipn. lia.
Qed.

Lemma slice_app_skipn buffer offset size :
  slice buffer offset (offset + size)
    ++ skipn (N.to_nat (offset + size)) buffer
  = skipn (N.to_nat offset) buffer.
Proof.
  unfold slice.
  replace (offset + size - offset)%N with size by lia.
  replace (N.to_nat (offset + size)) with (N.to_nat size + N.to_nat offset)
    by lia.
  rewrite <- skipn_skipn. apply firstn_skipn.
Qed.

Section ChunkLoop.

Variable type : js_string.
Variable buffer : list byte.

Let len := byteLength buffer.
Let next (offset : N) : N := (offset + N.min MAX_CHUNK_SIZE (len - offset))%N.
Let chunk_at (offset : N) : Blob :=
  {| blob_bytes := slice buffer offset (next offset); blob_type := type |}.

(** Induction along the offsets the loop visits. *)
Lemma chunk_offset_ind (P : N -> Prop) :
  (forall offset, ((offset < len)%N -> P (next offset)) -> P offset) ->
  forall offset, P offset.
Proof.
  intros step offset.
  remember (N.to_nat (len - offset)) as n eqn:Hn. revert offset Hn.
  induction n as [n IH] using lt_wf_ind. intros offset Hn.
  apply step. intros Hlt. apply (IH (N.to_nat (len - next offset))); trivial.
  subst n next. cbv beta. pose proof MAX_CHUNK_SIZE_pos. lia.
Qed.

Lemma chunkLoop_app offset : forall chunks,
  chunkLoop type buffer offset chunks
  = chunks ++ chunkLoop type buffer offset [].
Proof.
  induction offset as [offset IH] using chunk_offset_ind. intros chunks.
  rewrite (chunkLoop_eq _ _ _ chunks), (chunkLoop_eq _ _ _ []).
  fold len. destruct (N.ltb_spec offset len) as [Hlt|Hge]; cbv zeta.
  - fold (next offset). rewrite (IH Hlt (chunks ++ _)), (IH Hlt ([] ++ _)).
    now rewrite <- app_assoc.
  - now rewrite app_nil_r.
Qed.

Lemma chunkLoop_cons offset :
  (offset < len)%N ->
  chunkLoop type buffer offset []
  = chunk_at offset :: chunkLoop type buffer (next offset) [].
Proof.
  intros Hlt. rewrite chunkLoop_eq. fold len.
  apply N.ltb_lt in Hlt. rewrite Hlt. cbv zeta.
  fold (next offset). now rewrite chunkLoop_app.
Qed.

Lemma chunkLoop_nil offset :
  (len <= offset)%N -> chunkLoop type buffer offset [] = [].
Proof.
  intros Hge. rewrite chunkLoop_eq. fold len.
  apply N.ltb_ge in Hge. now rewrite Hge.
Qed.

Lemma next_le offset : (offset <= len)%N -> (next offset <= len)%N.
Proof. subst next. cbv beta. lia. Qed.

(** The chunks from [offset] on, put end to end, are the buffer from
    [offset] on. *)
Lemma chunkLoop_concat offset :
  concat (map blob_bytes (chunkLoop type buffer offset []))
  = skipn (N.to_nat offset) buffer.
Proof.
  induction offset as [offset IH] using chunk_offset_ind.
  destruct (N.ltb_spec offset len) as [Hlt|Hge].
  - rewrite (chunkLoop_cons Hlt). simpl. rewrite (IH Hlt).
    apply slice_app_skipn.
  - rewrite (chunkLoop_nil Hge). symmetry. apply skipn_all2.
    subst len. unfold byteLength in Hge. lia.
Qed.

(** Every chunk is non-empty, at most [MAX_CHUNK_SIZE] bytes long and has
    the type of the file. *)
Lemma chunkLoop_sizes offset :
  (offset <= len)%N ->
  Forall (fun c => (0 < blob_size c <= MAX_CHUNK_SIZE)%N
                   /\ blob_type c = type)
         (chunkLoop type buffer offset []).
Proof.
  induction offset as [offset IH] using chunk_offset_ind. intros Hle.
  destruct (N.ltb_spec offset len) as [Hlt|Hge].
  - rewrite (chunkLoop_cons Hlt). constructor.
    + unfold blob_size, chunk_at, next. cbn [blob_bytes blob_type].
      rewrite byteLength_slice by (fold len; lia).
      pose proof MAX_CHUNK_SIZE_pos. split; [lia | reflexivity].
    + apply (IH Hlt). now apply next_le.
  - rewrite (chunkLoop_nil Hge). constructor.
Qed.

(** Chunk [i] is the byte range that starts [i] full chunks after
    [offset]; every chunk but the last is full. *)
Lemma chunkLoop_nth offset : forall i c,
  (offset <= len)%N ->
  nth_error (chunkLoop type buffer offset []) i = Some c ->
  blob_bytes c
  = slice buffer (offset + N.of_nat i * MAX_CHUNK_SIZE)
      (N.min (offset + (N.of_nat i + 1) * MAX_CHUNK_SIZE) len)
  /\ (S i < length (chunkLoop type buffer offset [])
      -> blob_size c = MAX_CHUNK_SIZE).
Proof.
  induction offset as [offset IH] using chunk_offset_ind.
  intros i c Hle Hnth.
  destruct (N.ltb_spec offset len) as [Hlt|Hge].
  2: { rewrite (chunkLoop_nil Hge) in Hnth. now destruct i. }
  rewrite (chunkLoop_cons Hlt) in *.
  assert (Hrest : chunkLoop type buffer (next offset) [] <> [] ->
                  next offset = (offset + MAX_CHUNK_SIZE)%N).
  { intros Hne. destruct (N.ltb_spec (next offset) len) as [Hlt'|Hge'].
    - subst next. cbv beta in *. lia.
    - now rewrite (chunkLoop_nil Hge') in Hne. }
  destruct i as [|i]; simpl in Hnth.
  - injection Hnth as <-. split.
    + unfold chunk_at, next. cbn [blob_bytes]. f_equal; lia.
    + simpl. intros Hlen. unfold blob_size, chunk_at. cbn [blob_bytes].
      rewrite Hrest.
      * apply byteLength_slice. fold len.
        rewrite <- Hrest; [now apply next_le|].
        intros E. rewrite E in Hlen. simpl in Hlen. lia.
      * intros E. rewrite E in Hlen. simpl in Hlen. lia.
  - destruct (IH Hlt i c (next_le Hle) Hnth) as [Hb Hs].
    assert (Hne : chunkLoop type buffer (next offset) [] <> []).
    { intros E. rewrite E in Hnth. now destruct i. }
    rewrite (Hrest Hne) in Hb. split.
    + rewrite Hb. f_equal; lia.
    + simpl. intros Hlen. apply Hs. lia.
Qed.

End ChunkLoop.

(** Chunks that concatenate to a buffer are consecutive ranges of it. *)
Lemma concat_ranges (chunks : list Blob) : forall buffer i c,
  concat (map blob_bytes chunks) = buffer ->
  nth_error chunks i = Some c ->
  blob_bytes c
  = slice buffer (chunk_offset chunks i) (chunk_offset chunks (S i)).
Proof.
  induction chunks as [|c0 chunks IH]; intros buffer i c Hcat Hnth.
  - now destruct i.
  - simpl in Hcat. subst buffer. destruct i as [|i]; simpl in Hnth.
    + injection Hnth as <-. unfold chunk_offset, slice, byteLength. simpl.
      rewrite app_nil_r, N.sub_0_r, Nat2N.id.
      rewrite firstn_app, Nat.sub_diag, firstn_all. simpl.
      now rewrite app_nil_r.
    + rewrite (IH _ i c eq_refl Hnth).
      unfold chunk_offset, slice, byteLength.
      cbn [firstn map concat]. rewrite !length_app.
      replace (N.to_nat (N.of_nat (length (blob_bytes c0)
                 + length (concat (map blob_bytes (firstn i chunks))))))
        with (N.to_nat (N.of_nat
                (length (concat (map blob_bytes (firstn i chunks)))))
              + length (blob_bytes c0)) by lia.
      rewrite <- skipn_skipn.
      rewrite skipn_app, skipn_all, Nat.sub_diag. simpl.
      f_equal. lia.
Qed.

Lemma chunk_offset_all (chunks : list Blob) :
  chunk_offset chunks (length chunks)
  = byteLength (concat (map blob_bytes chunks)).
Proof. unfold chunk_offset. now rewrite firstn_all. Qed.

Lemma size_limits :
  (MAX_CHUNK_SIZE < GROQ_SIZE_LIMIT)%N /\ (GROQ_SIZE_LIMIT < MAX_FILE_SIZE)%N.
Proof. split; reflexivity. Qed.

(** What [processAudioFile] returns for a file above the provider's limit
    and within the maximum. *)
Lemma processAudioFile_large file :
  (GROQ_SIZE_LIMIT < file_size file <= MAX_FILE_SIZE)%N ->
  processAudioFile file
  = inr {| chunks := chunkLoop (file_type file) (file_bytes file) 0 [];
           fileName := file_name file;
           fileType := file_type file;
           totalSize := file_size file |}.
Proof.
  intros [Hlo Hhi]. unfold processAudioFile.
  destruct (N.ltb_spec MAX_FILE_SIZE (file_size file)); [lia|].
  destruct (N.leb_spec (file_size file) GROQ_SIZE_LIMIT); [lia|].
  reflexivity.
Qed.

Lemma processAudioFile_small file :
  (file_size file <= GROQ_SIZE_LIMIT)%N ->
  processAudioFile file
  = inr {| chunks := [blob_of_file file];
           fileName := file_name file;
           fileType := file_type file;
           totalSize := file_size file |}.
Proof.
  intros Hle. unfold processAudioFile. pose proof size_limits.
  destruct (N.ltb_spec MAX_FILE_SIZE (file_size file)); [lia|].
  destruct (N.leb_spec (file_size file) GROQ_SIZE_LIMIT); [|lia].
  reflexivity.
Qed.

(** C4. A payload of at most 25 MiB is returned as exactly one chunk, and
    that chunk is the whole payload: the file itself, with its bytes and its
    type. *)
Theorem small_payload_is_one_chunk file :
  (file_size file <= GROQ_SIZE_LIMIT)%N ->
  exists processed,
    processAudioFile file = inr processed
    /\ chunks processed = [blob_of_file file]
    /\ blob_bytes (blob_of_file file) = file_bytes file.
Proof.
  intros Hle. eexists. split; [apply (processAudioFile_small _ Hle)|].
  split; reflexivity.
Qed.

Lemma small_payload_is_one_chunk_witness :
  (file_size (zero_file 3) <= GROQ_SIZE_LIMIT)%N
  /\ exists processed,
       processAudioFile (zero_file 3) = inr processed
       /\ chunks processed = [blob_of_file (zero_file 3)]
       /\ blob_bytes (blob_of_file (zero_file 3)) = file_bytes (zero_file 3).
Proof.
  assert (H : (file_size (zero_file 3) <= GROQ_SIZE_LIMIT)%N)
    by (apply N.leb_le; reflexivity).
  split; [exact H | exact (small_payload_is_one_chunk (zero_file 3) H)].
Defined.

(** C9. A payload of more than 500 MiB is rejected: [processAudioFile]
    throws before it builds any chunk, so no chunk list is returned. *)
Theorem oversized_payload_is_rejected file :
  (MAX_FILE_SIZE < file_size file)%N ->
  processAudioFile file
  = inl (Error (lit "File size exceeds maximum limit of 500MB"))
  /\ forall processed, processAudioFile file <> inr processed.
Proof.
  intros Hgt. unfold processAudioFile.
  apply N.ltb_lt in Hgt. rewrite Hgt. split; [reflexivity | discriminate].
Qed.

Lemma oversized_payload_is_rejected_witness :
  (MAX_FILE_SIZE < file_size (zero_file (500 * 1024 * 1024 + 1)))%N
  /\ processAudioFile (zero_file (500 * 1024 * 1024 + 1))
     = inl (Error (lit "File size exceeds maximum limit of 500MB"))
  /\ forall processed,
       processAudioFile (zero_file (500 * 1024 * 1024 + 1)) <> inr processed.
Proof.
  assert (H : (MAX_FILE_SIZE < file_size (zero_file (500 * 1024 * 1024 + 1)))%N)
    by (rewrite file_size_zero_file; reflexivity).
  split; [exact H | exact (oversized_payload_is_rejected _ H)].
Defined.

(** C2. A payload of more than 25 MiB (and at most 500 MiB) is cut into
    consecutive chunks of at most 20 MiB: chunk [i] is the byte range that
    starts at [i] times 20 MiB, every chunk but the last is exactly 20 MiB
    long, and the chunks, concatenated in order, are the payload. *)
Theorem large_payload_is_partitioned file :
  (GROQ_SIZE_LIMIT < file_size file <= MAX_FILE_SIZE)%N ->
  exists processed,
    processAudioFile file = inr processed
    /\ Forall (fun c => (blob_size c <= MAX_CHUNK_SIZE)%N) (chunks processed)
    /\ (forall i c,
          nth_error (chunks processed) i = Some c ->
          blob_bytes c
          = slice (file_bytes file) (N.of_nat i * MAX_CHUNK_SIZE)
              (N.min ((N.of_nat i + 1) * MAX_CHUNK_SIZE) (file_size file))
          /\ (S i < length (chunks processed)
              -> blob_size c = MAX_CHUNK_SIZE))
    /\ concat (map blob_bytes (chunks processed)) = file_bytes file.
Proof.
  intros Hsize. eexists. split; [apply (processAudioFile_large _ Hsize)|].
  cbn [chunks]. split; [|split].
  - eapply Forall_impl; [|apply chunkLoop_sizes; apply N.le_0_l].
    cbv beta. intros c [[_ H] _]. exact H.
  - intros i c Hnth.
    apply (chunkLoop_nth (file_type file) (file_bytes file) (offset := 0));
      [apply N.le_0_l | exact Hnth].
  - apply (chunkLoop_concat (file_type file) (file_bytes file) 0).
Qed.

Lemma large_payload_is_partitioned_witness :
  (GROQ_SIZE_LIMIT < file_size (zero_file (25 * 1024 * 1024 + 1))
   <= MAX_FILE_SIZE)%N
  /\ exists processed,
    processAudioFile (zero_file (25 * 1024 * 1024 + 1)) = inr processed
    /\ Forall (fun c => (blob_size c <= MAX_CHUNK_SIZE)%N) (chunks processed)
    /\ (forall i c,
          nth_error (chunks processed) i = Some c ->
          blob_bytes c
          = slice (file_bytes (zero_file (25 * 1024 * 1024 + 1)))
              (N.of_nat i * MAX_CHUNK_SIZE)
              (N.min ((N.of_nat i + 1) * MAX_CHUNK_SIZE)
                     (file_size (zero_file (25 * 1024 * 1024 + 1))))
          /\ (S i < length (chunks processed)
              -> blob_size c = MAX_CHUNK_SIZE))
    /\ concat (map blob_bytes (chunks processed))
       = file_bytes (zero_file (25 * 1024 * 1024 + 1)).
Proof.
  assert (H : (GROQ_SIZE_LIMIT < file_size (zero_file (25 * 1024 * 1024 + 1))
               <= MAX_FILE_SIZE)%N).
  { rewrite file_size_zero_file. split.
    - reflexivity.
    - apply N.leb_le. reflexivity. }
  split; [exact H | exact (large_payload_is_partitioned _ H)].
Defined.

(** C3, as stated, fails on the soft target: a payload of 20 MiB and one
    byte is accepted and returned whole, as one chunk above 20 MiB. *)
Lemma soft_target_is_exceeded :
  (file_size (zero_file (20 * 1024 * 1024 + 1)) <= MAX_FILE_SIZE)%N
  /\ exists processed,
       processAudioFile (zero_file (20 * 1024 * 1024 + 1)) = inr processed
       /\ chunks processed = [blob_of_file (zero_file (20 * 1024 * 1024 + 1))]
       /\ ~ Forall (fun c => (blob_size c <= GROQ_SIZE_LIMIT)%N
                             /\ (blob_size c <= MAX_CHUNK_SIZE)%N)
                   (chunks processed).
Proof.
  split.
  - rewrite file_size_zero_file. apply N.leb_le. reflexivity.
  - eexists. split; [|split].
    + apply processAudioFile_small. rewrite file_size_zero_file.
      apply N.leb_le. reflexivity.
    + reflexivity.
    + cbn [chunks]. intros H. apply Forall_inv in H. destruct H as [_ H].
      unfold blob_size, blob_of_file, zero_file in H. cbn [blob_bytes file_bytes] in H.
      rewrite byteLength_zeros in H. apply H. reflexivity.
Qed.

(** C3, as the code has it.  For an accepted payload every chunk is at most
    25 MiB long, and at most 20 MiB long when the payload is larger than
    25 MiB or no larger than 20 MiB; the chunks are consecutive byte ranges
    of the payload that start at 0 and end at its size. *)
Theorem chunks_are_within_limits file :
  (file_size file <= MAX_FILE_SIZE)%N ->
  exists processed,
    processAudioFile file = inr processed
    /\ Forall (fun c => (blob_size c <= GROQ_SIZE_LIMIT)%N) (chunks processed)
    /\ ((file_size file <= MAX_CHUNK_SIZE)%N
        \/ (GROQ_SIZE_LIMIT < file_size file)%N ->
        Forall (fun c => (blob_size c <= MAX_CHUNK_SIZE)%N) (chunks processed))
    /\ concat (map blob_bytes (chunks processed)) = file_bytes file
    /\ (forall i c,
          nth_error (chunks processed) i = Some c ->
          blob_bytes c
          = slice (file_bytes file) (chunk_offset (chunks processed) i)
              (chunk_offset (chunks processed) (S i)))
    /\ chunk_offset (chunks processed) 0 = 0%N
    /\ chunk_offset (chunks processed) (length (chunks processed))
       = file_size file.
Proof.
  intros Hmax. pose proof size_limits as [Hsoft Hhard].
  assert (Hgoal : exists processed,
    processAudioFile file = inr processed
    /\ Forall (fun c => (blob_size c <= GROQ_SIZE_LIMIT)%N) (chunks processed)
    /\ ((file_size file <= MAX_CHUNK_SIZE)%N
        \/ (GROQ_SIZE_LIMIT < file_size file)%N ->
        Forall (fun c => (blob_size c <= MAX_CHUNK_SIZE)%N) (chunks processed))
    /\ concat (map blob_bytes (chunks processed)) = file_bytes file).
  { destruct (N.le_gt_cases (file_size file) GROQ_SIZE_LIMIT) as [Hle|Hgt].
    - eexists. split; [apply (processAudioFile_small _ Hle)|].
      cbn [chunks]. split; [|split].
      + constructor; [exact Hle | constructor].
      + intros [H|H]; [|lia]. constructor; [exact H | constructor].
      + simpl. apply app_nil_r.
    - eexists. split; [apply (processAudioFile_large _ (conj Hgt Hmax))|].
      cbn [chunks].
      pose proof (chunkLoop_sizes (file_type file) (file_bytes file)
                    (N.le_0_l _)) as Hsizes.
      split; [|split].
      + eapply Forall_impl; [|exact Hsizes]. cbv beta. intros c [[_ Hc] _]. lia.
      + intros _. eapply Forall_impl; [|exact Hsizes]. cbv beta.
        now intros c [[_ Hc] _].
      + apply (chunkLoop_concat (file_type file) (file_bytes file) 0). }
  destruct Hgoal as (processed & Hp & Hhardlimit & Hsoftlimit & Hcat).
  exists processed. repeat split; trivial.
  - intros i c Hnth. now apply concat_ranges.
  - rewrite chunk_offset_all. now rewrite Hcat.
Qed.

Lemma chunks_are_within_limits_witness :
  (file_size (zero_file 3) <= MAX_FILE_SIZE)%N
  /\ exists processed,
    processAudioFile (zero_file 3) = inr processed
    /\ Forall (fun c => (blob_size c <= GROQ_SIZE_LIMIT)%N) (chunks processed)
    /\ ((file_size (zero_file 3) <= MAX_CHUNK_SIZE)%N
        \/ (GROQ_SIZE_LIMIT < file_size (zero_file 3))%N ->
        Forall (fun c => (blob_size c <= MAX_CHUNK_SIZE)%N) (chunks processed))
    /\ concat (map blob_bytes (chunks processed)) = file_bytes (zero_file 3)
    /\ (forall i c,
          nth_error (chunks processed) i = Some c ->
          blob_bytes c
          = slice (file_bytes (zero_file 3))
              (chunk_offset (chunks processed) i)
              (chunk_offset (chunks processed) (S i)))
    /\ chunk_offset (chunks processed) 0 = 0%N
    /\ chunk_offset (chunks processed) (length (chunks processed))
       = file_size (zero_file 3).
Proof.
  assert (H : (file_size (zero_file 3) <= MAX_FILE_SIZE)%N)
    by (apply N.leb_le; reflexivity).
  split; [exact H | exact (chunks_are_within_limits (zero_file 3) H)].
Defined.

(** A buffer of more than two and at most three full chunks is cut in
    three. *)
Lemma chunkLoop_three type buffer :
  (2 * MAX_CHUNK_SIZE < byteLength buffer <= 3 * MAX_CHUNK_SIZE)%N ->
  chunkLoop type buffer 0 []
  = [ {| blob_bytes := slice buffer 0 MAX_CHUNK_SIZE; blob_type := type |};
      {| blob_bytes := slice buffer MAX_CHUNK_SIZE (2 * MAX_CHUNK_SIZE);
         blob_type := type |};
      {| blob_bytes := slice buffer (2 * MAX_CHUNK_SIZE) (byteLength buffer);
         blob_type := type |} ].
Proof.
  intros [Hlo Hhi]. pose proof MAX_CHUNK_SIZE_pos as Hpos.
  rewrite chunkLoop_cons by lia.
  replace (0 + N.min MAX_CHUNK_SIZE (byteLength buffer - 0))%N
    with MAX_CHUNK_SIZE by lia.
  rewrite chunkLoop_cons by lia.
  replace (MAX_CHUNK_SIZE
           + N.min MAX_CHUNK_SIZE (byteLength buffer - MAX_CHUNK_SIZE))%N
    with (2 * MAX_CHUNK_SIZE)%N by lia.
  rewrite chunkLoop_cons by lia.
  replace (2 * MAX_CHUNK_SIZE
           + N.min MAX_CHUNK_SIZE (byteLength buffer - 2 * MAX_CHUNK_SIZE))%N
    with (byteLength buffer) by lia.
  rewrite chunkLoop_nil by lia. reflexivity.
Qed.

Lemma processAudioFile_three file :
  (2 * MAX_CHUNK_SIZE < file_size file <= 3 * MAX_CHUNK_SIZE)%N ->
  processAudioFile file = inr (three_chunks file).
Proof.
  intros Hsize.
  assert (H40 : (GROQ_SIZE_LIMIT < 2 * MAX_CHUNK_SIZE)%N) by reflexivity.
  assert (H60 : (3 * MAX_CHUNK_SIZE <= MAX_FILE_SIZE)%N)
    by (apply N.leb_le; reflexivity).
  rewrite processAudioFile_large by lia.
  unfold file_size in Hsize. rewrite (chunkLoop_three _ _ Hsize).
  reflexivity.
Qed.

(* ===================================================================== *)
(** * The merger *)
(* ===================================================================== *)

Lemma same_number_add_zero x : same_number x (add x zero).
Proof.
  destruct x as [[]| | |]; simpl; try (left; reflexivity).
  right. now exists true, false.
Qed.

Lemma adjustSegment_frame offset s : same_frame (adjustSegment offset s) s.
Proof. repeat split. Qed.

Lemma last_segment_rev (segs : list TranscriptionSegment) :
  nth_error segs (length segs - 1) = hd_error (rev segs).
Proof.
  destruct segs as [|s segs _] using rev_ind; [reflexivity|].
  rewrite rev_app_distr, length_app. simpl.
  replace (length segs + 1 - 1) with (length segs) by lia.
  rewrite nth_error_app2, Nat.sub_diag by lia. reflexivity.
Qed.

Lemma combineStep_offset st index t :
  timeOffset (combineStep st index t) = next_offset (timeOffset st) t.
Proof.
  unfold combineStep, next_offset. cbn [timeOffset].
  rewrite last_segment_rev.
  destruct (segments t) as [|s segs] using rev_ind; [reflexivity|].
  rewrite rev_app_distr, length_app. simpl.
  now replace (length segs + 1) with (S (length segs)) by lia.
Qed.

Lemma combineStep_segments st index t :
  combinedSegments (combineStep st index t)
  = combinedSegments st ++ map (adjustSegment (timeOffset st)) (segments t).
Proof. reflexivity. Qed.

Lemma combineLoop_segments l : forall st index,
  combinedSegments (combineLoop st index l)
  = combinedSegments st ++ rebased (timeOffset st) l.
Proof.
  induction l as [|t l IH]; intros st index; simpl.
  - now rewrite app_nil_r.
  - rewrite IH, combineStep_offset, combineStep_segments.
    now rewrite <- app_assoc.
Qed.

Lemma combineLoop_offset l : forall st index,
  timeOffset (combineLoop st index l)
  = fold_left next_offset l (timeOffset st).
Proof.
  induction l as [|t l IH]; intros st index; simpl; [reflexivity|].
  now rewrite IH, combineStep_offset.
Qed.

Lemma rebased_app l1 : forall offset l2,
  rebased offset (l1 ++ l2)
  = rebased offset l1 ++ rebased (fold_left next_offset l1 offset) l2.
Proof.
  induction l1 as [|t l1 IH]; intros offset l2; simpl; [reflexivity|].
  now rewrite IH, app_assoc.
Qed.

Lemma rebased_frame l : forall offset,
  Forall2 same_frame (rebased offset l) (concat (map segments l)).
Proof.
  induction l as [|t l IH]; intros offset; simpl; [constructor|].
  apply Forall2_app; [|apply IH].
  induction (segments t); simpl; constructor; trivial.
  apply adjustSegment_frame.
Qed.

(** What [combineTranscriptions] returns for two chunks or more. *)
Lemma combineTranscriptions_many t1 t2 l :
  combineTranscriptions (t1 :: t2 :: l)
  = inr {| r_text := trim (combinedText
                            (combineLoop combineInit 0 (t1 :: t2 :: l)));
           segments := rebased zero (t1 :: t2 :: l);
           language := language t1 |}.
Proof.
  unfold combineTranscriptions. rewrite combineLoop_segments. reflexivity.
Qed.

Lemma Forall2_map_r {A B} (R : A -> B -> Prop) (f : A -> B) (l : list A) :
  (forall x, R x (f x)) -> Forall2 R l (map f l).
Proof. intros H. induction l; simpl; constructor; auto. Qed.

Lemma Forall2_diag {A} (R : A -> A -> Prop) (l : list A) :
  (forall x, R x x) -> Forall2 R l l.
Proof. intros H. induction l; constructor; auto. Qed.

Lemma Forall2_same_frame_ids a b :
  Forall2 same_frame a b -> map id a = map id b.
Proof.
  induction 1 as [|x y a b [Hid _] _ IH]; simpl; [reflexivity|].
  now rewrite Hid, IH.
Qed.

Lemma Forall2_map_l {A B} (R : B -> A -> Prop) (f : A -> B) (l : list A) :
  (forall x, R (f x) x) -> Forall2 R (map f l) l.
Proof. intros H. induction l; simpl; constructor; auto. Qed.

(** [adjustSegment] rebases, and the merger's list is the chunks' segments,
    each rebased by the running offset of its chunk. *)
Lemma adjustSegment_rebased_by offset s :
  rebased_by offset s (adjustSegment offset s).
Proof. repeat split. Qed.

Lemma rebased_with_offsets l : forall offset,
  rebased offset l
  = map (fun p => adjustSegment (fst p) (snd p)) (with_offsets offset l).
Proof.
  induction l as [|t l IH]; intros offset; simpl; [reflexivity|].
  now rewrite map_app, map_map, IH.
Qed.

Lemma with_offsets_segments l : forall offset,
  map snd (with_offsets offset l) = concat (map segments l).
Proof.
  induction l as [|t l IH]; intros offset; simpl; [reflexivity|].
  rewrite map_app, map_map, IH. cbn [snd]. now rewrite map_id.
Qed.

(** [x + 0] is [x], but for the negative zero. *)
Lemma add_zero_r x : not_negative_zero x -> add x zero = x.
Proof.
  destruct x as [[]| | |]; intros H; try reflexivity. now contradiction H.
Qed.

(** C10, as the code has it.  For a non-empty list of chunk transcripts the combined
    segments are the chunks' segments, in input order and as many, with
    every field other than start and end unchanged and the ids carried over
    as they are.  With two chunks or more each segment is rebased by the
    running offset of its chunk: its start and its end are the original's
    plus the offset.  A single transcript is returned as it is, its segments
    not rebased: that is rebasing by the offset 0 whenever no start or end is
    the negative zero, and in every case gives times that [===] cannot tell
    from the rebased ones. *)
Theorem combined_segments_are_rebased l :
  l <> [] ->
  exists r,
    combineTranscriptions l = inr r
    /\ length (segments r) = length (concat (map segments l))
    /\ map snd (with_offsets zero l) = concat (map segments l)
    /\ Forall2 same_frame (segments r) (concat (map segments l))
    /\ map id (segments r) = concat (map (fun t => map id (segments t)) l)
    /\ (2 <= length l
        \/ Forall (fun s => not_negative_zero (start s)
                            /\ not_negative_zero (end_ s))
                  (concat (map segments l)) ->
        Forall2 (fun moved p => rebased_by (fst p) (snd p) moved)
          (segments r) (with_offsets zero l))
    /\ Forall2 (fun moved p =>
                  same_number (start moved) (add (start (snd p)) (fst p))
                  /\ same_number (end_ moved) (add (end_ (snd p)) (fst p)))
         (segments r) (with_offsets zero l)
    /\ (forall t, l = [t] -> r = t).
Proof.
  intros Hne.
  assert (Hgoal : exists r,
    combineTranscriptions l = inr r
    /\ Forall2 same_frame (segments r) (concat (map segments l))
    /\ (2 <= length l
        \/ Forall (fun s => not_negative_zero (start s)
                            /\ not_negative_zero (end_ s))
                  (concat (map segments l)) ->
        Forall2 (fun moved p => rebased_by (fst p) (snd p) moved)
          (segments r) (with_offsets zero l))
    /\ Forall2 (fun moved p =>
                  same_number (start moved) (add (start (snd p)) (fst p))
                  /\ same_number (end_ moved) (add (end_ (snd p)) (fst p)))
         (segments r) (with_offsets zero l)
    /\ (forall t, l = [t] -> r = t)).
  { destruct l as [|t1 [|t2 l]]; [contradiction | |].
    - exists t1. split; [reflexivity|]. simpl. rewrite !app_nil_r.
      split; [|split; [|split]].
      + apply Forall2_diag. intros s. repeat split.
      + intros [Htwo | Hzero]; [lia|].
        induction (segments t1) as [|s segs IH]; simpl; constructor.
        * apply Forall_inv in Hzero. destruct Hzero as [Hstart Hend].
          unfold rebased_by. cbn [fst snd].
          rewrite (add_zero_r Hstart), (add_zero_r Hend). repeat split.
        * apply IH. now apply Forall_inv_tail in Hzero.
      + induction (segments t1) as [|s segs IH]; simpl; constructor;
          [|exact IH].
        cbn [fst snd]. split; apply same_number_add_zero.
      + now intros t [= ->].
    - eexists. split; [apply combineTranscriptions_many|]. cbn [segments].
      split; [|split; [|split]].
      + apply rebased_frame.
      + intros _. rewrite rebased_with_offsets. apply Forall2_map_l.
        intros p. apply adjustSegment_rebased_by.
      + rewrite rebased_with_offsets. apply Forall2_map_l.
        intros p. split; now left.
      + discriminate. }
  destruct Hgoal as (r & Hr & Hframe & Hexact & Htimes & Hone).
  exists r. split; [exact Hr|].
  split; [eapply Forall2_length; eassumption|].
  split; [apply with_offsets_segments|].
  split; [exact Hframe|]. split.
  - rewrite (Forall2_same_frame_ids Hframe).
    clear. induction l as [|t l IH]; simpl; [reflexivity|].
    now rewrite map_app, IH.
  - split; [exact Hexact|]. split; [exact Htimes | exact Hone].
Qed.

Lemma combined_segments_are_rebased_witness :
  [sample_a; sample_b] <> []
  /\ exists r,
       combineTranscriptions [sample_a; sample_b] = inr r
       /\ with_offsets zero [sample_a; sample_b]
          = [ (zero, sample_segment 0 0 4 "a");
              (zero, sample_segment 1 4 10 "b");
              (of_Z 10, sample_segment 0 0 2 "c") ]
       /\ map start (segments r) = [of_Z 0; of_Z 4; of_Z 10]
       /\ map end_ (segments r) = [of_Z 4; of_Z 10; of_Z 12]
       /\ map id (segments r) = [of_Z 0; of_Z 1; of_Z 0]
       /\ map text (segments r) = [lit "a"; lit "b"; lit "c"].
Proof.
  assert (H : [sample_a; sample_b] <> []) by discriminate.
  split; [exact H|].
  destruct (combined_segments_are_rebased H)
    as (r & Hr & _ & _ & _ & _ & Hexact & _).
  exists r. split; [exact Hr|]. split; [reflexivity|].
  assert (Hmoved : Forall2 (fun moved p => rebased_by (fst p) (snd p) moved)
                     (segments r) (with_offsets zero [sample_a; sample_b])).
  { apply Hexact. left. simpl. lia. }
  clear Hexact Hr.
  inversion Hmoved as [|s1 p1 l1 q1 (Hs1 & He1 & Hf1) Hmoved1 E1 F1].
  inversion Hmoved1 as [|s2 p2 l2 q2 (Hs2 & He2 & Hf2) Hmoved2 E2 F2].
  inversion Hmoved2 as [|s3 p3 l3 q3 (Hs3 & He3 & Hf3) Hmoved3 E3 F3].
  inversion Hmoved3. subst.
  destruct Hf1 as (Hi1 & Ht1 & _), Hf2 as (Hi2 & Ht2 & _),
           Hf3 as (Hi3 & Ht3 & _).
  cbn [map]. rewrite Hs1, Hs2, Hs3, He1, He2, He3, Hi1, Hi2, Hi3, Ht1, Ht2, Ht3.
  repeat split.
Defined.

(** C10, as stated, fails for a single transcript: it is returned as it is,
    so a segment that starts at [-0] still starts at [-0], where rebasing by
    the running offset 0 gives [-0 + 0], the positive zero. *)
Lemma single_transcript_is_not_rebased :
  [sample_negative_zero] <> []
  /\ exists r,
       combineTranscriptions [sample_negative_zero] = inr r
       /\ map start (segments r) = [S754_zero true]
       /\ map (fun p => add (start (snd p)) (fst p))
            (with_offsets zero [sample_negative_zero])
          = [S754_zero false]
       /\ ~ Forall2 (fun moved p => rebased_by (fst p) (snd p) moved)
             (segments r) (with_offsets zero [sample_negative_zero]).
Proof.
  split; [discriminate|]. eexists. split; [reflexivity|].
  split; [reflexivity|]. split; [reflexivity|].
  intros H. inversion H as [|s p l q (Hstart & _) _ E F]. subst.
  discriminate Hstart.
Qed.

(** Segment ids are local to a chunk, so they can repeat in the combined
    list: here the ids are 0, 1, 0. *)
Example segment_ids_repeat :
  exists r,
    combineTranscriptions [sample_a; sample_b] = inr r
    /\ map id (segments r) = [of_Z 0; of_Z 1; of_Z 0]
    /\ map start (segments r) = [of_Z 0; of_Z 4; of_Z 10]
    /\ map end_ (segments r) = [of_Z 4; of_Z 10; of_Z 12].
Proof. eexists. split; [reflexivity|]. repeat split. Qed.

(** C5. A chunk without segments leaves the running offset as it was (and
    adds no segment), so the chunks after it are moved by the offsets they
    would get if it were not there. *)
Theorem empty_chunk_keeps_offset t :
  segments t = [] ->
  (forall st index,
     timeOffset (combineStep st index t) = timeOffset st
     /\ combinedSegments (combineStep st index t) = combinedSegments st)
  /\ (forall pre post st index,
        timeOffset (combineLoop st index (pre ++ t :: post))
        = timeOffset (combineLoop st index (pre ++ post))
        /\ combinedSegments (combineLoop st index (pre ++ t :: post))
           = combinedSegments (combineLoop st index (pre ++ post)))
  /\ (forall pre post r,
        combineTranscriptions (pre ++ t :: post) = inr r ->
        segments r = rebased zero (pre ++ post)).
Proof.
  intros Ht.
  assert (Hnext : forall offset, next_offset offset t = offset).
  { intros offset. unfold next_offset. now rewrite Ht. }
  assert (Hreb : forall offset pre post,
             rebased offset (pre ++ t :: post) = rebased offset (pre ++ post)).
  { intros offset pre post. rewrite !rebased_app. simpl.
    now rewrite Ht, Hnext. }
  split; [|split].
  - intros st index. rewrite combineStep_offset, combineStep_segments, Ht.
    simpl. now rewrite app_nil_r, Hnext.
  - intros pre post st index.
    rewrite !combineLoop_offset, !combineLoop_segments, Hreb.
    rewrite !fold_left_app. simpl. now rewrite Hnext.
  - intros pre post r Hr. rewrite <- Hreb.
    destruct (pre ++ t :: post) as [|t1 [|t2 l]] eqn:E.
    + discriminate.
    + injection Hr as <-. destruct pre as [|p pre].
      * simpl in E. injection E as -> _. simpl. now rewrite Ht.
      * destruct pre; discriminate.
    + rewrite combineTranscriptions_many in Hr. now injection Hr as <-.
Qed.

Lemma empty_chunk_keeps_offset_witness :
  segments sample_silent = []
  /\ (forall st index,
        timeOffset (combineStep st index sample_silent) = timeOffset st
        /\ combinedSegments (combineStep st index sample_silent)
           = combinedSegments st)
  /\ (forall pre post st index,
        timeOffset (combineLoop st index (pre ++ sample_silent :: post))
        = timeOffset (combineLoop st index (pre ++ post))
        /\ combinedSegments (combineLoop st index (pre ++ sample_silent :: post))
           = combinedSegments (combineLoop st index (pre ++ post)))
  /\ (forall pre post r,
        combineTranscriptions (pre ++ sample_silent :: post) = inr r ->
        segments r = rebased zero (pre ++ post)).
Proof.
  assert (H : segments sample_silent = []) by reflexivity.
  split; [exact H | exact (empty_chunk_keeps_offset sample_silent H)].
Defined.

(** A silent chunk between two others: the third chunk starts where the
    first one ended. *)
Example silent_chunk_between :
  exists r,
    combineTranscriptions [sample_a; sample_silent; sample_b] = inr r
    /\ map start (segments r) = [of_Z 0; of_Z 4; of_Z 10]
    /\ map end_ (segments r) = [of_Z 4; of_Z 10; of_Z 12].
Proof. eexists. split; [reflexivity|]. split; reflexivity. Qed.

Lemma trimStart_keeps a s :
  is_white_space a = false -> trimStart (a :: s) = a :: s.
Proof. intros H. simpl. now rewrite H. Qed.

(** Trimming changes nothing between two code units that are not white
    space. *)
Lemma trim_keeps a s b :
  is_white_space a = false -> is_white_space b = false ->
  trim (a :: s ++ [b]) = a :: s ++ [b].
Proof.
  intros Ha Hb. unfold trim, trimEnd. rewrite trimStart_keeps by exact Ha.
  replace (rev (a :: s ++ [b])) with (b :: rev s ++ [a])
    by (simpl; now rewrite rev_app_distr).
  rewrite trimStart_keeps by exact Hb. simpl.
  now rewrite rev_app_distr, rev_involutive.
Qed.

(** C1, as the code has it.  When the last segment of [A] ends at 10.0 and
    [B] has a segment from 0.0 to 2.0, merging [A] and [B] gives, at that
    segment's place, the same segment from 10.0 to 12.0.  The combined text
    is [A]'s text, one space and [B]'s text with the white space at both
    ends of the whole removed: exactly [A.text + " " + B.text] when [A]'s
    text begins and [B]'s text ends with something other than white space. *)
Theorem two_chunks_are_merged A B front last_a pre s post :
  segments A = front ++ [last_a] ->
  end_ last_a = of_Z 10 ->
  segments B = pre ++ s :: post ->
  start s = zero ->
  end_ s = of_Z 2 ->
  exists r,
    combineTranscriptions [A; B] = inr r
    /\ nth_error (segments r) (length (segments A) + length pre)
       = Some {| id := id s; start := of_Z 10; end_ := of_Z 12;
                 text := text s; tokens := tokens s;
                 temperature := temperature s;
                 avg_logprob := avg_logprob s;
                 compression_ratio := compression_ratio s;
                 no_speech_prob := no_speech_prob s |}
    /\ r_text r = trim (r_text A ++ lit " " ++ r_text B)
    /\ (forall a ta tb b,
          r_text A = a :: ta -> is_white_space a = false ->
          r_text B = tb ++ [b] -> is_white_space b = false ->
          r_text r = r_text A ++ lit " " ++ r_text B).
Proof.
  intros HA Hend HB Hstart Hfinal.
  eexists. split; [apply combineTranscriptions_many|].
  cbn [segments r_text].
  assert (Htext : combinedText (combineLoop combineInit 0 [A; B])
                  = r_text A ++ lit " " ++ r_text B).
  { simpl. now rewrite <- app_assoc. }
  split; [|split].
  - simpl. rewrite app_nil_r.
    rewrite nth_error_app2 by (rewrite length_map; lia).
    rewrite length_map.
    replace (length (segments A) + length pre - length (segments A))
      with (length pre) by lia.
    unfold next_offset. rewrite HA, rev_app_distr. simpl. rewrite Hend.
    rewrite HB, map_app, nth_error_app2 by (rewrite length_map; lia).
    rewrite length_map, Nat.sub_diag. simpl. unfold adjustSegment.
    rewrite Hstart, Hfinal. reflexivity.
  - now rewrite Htext.
  - intros a ta tb b Ha Hwa Hb Hwb. rewrite Htext, Ha, Hb.
    replace ((a :: ta) ++ lit " " ++ tb ++ [b])
      with (a :: (ta ++ lit " " ++ tb) ++ [b])
      by (simpl; now rewrite <- !app_assoc).
    now apply trim_keeps.
Qed.

Lemma two_chunks_are_merged_witness :
  segments sample_a = [sample_segment 0 0 4 "a"] ++ [sample_segment 1 4 10 "b"]
  /\ end_ (sample_segment 1 4 10 "b") = of_Z 10
  /\ segments sample_b = [] ++ sample_segment 0 0 2 "c" :: []
  /\ start (sample_segment 0 0 2 "c") = zero
  /\ end_ (sample_segment 0 0 2 "c") = of_Z 2
  /\ exists r,
    combineTranscriptions [sample_a; sample_b] = inr r
    /\ nth_error (segments r) (length (segments sample_a) + length (@nil TranscriptionSegment))
       = Some {| id := of_Z 0; start := of_Z 10; end_ := of_Z 12;
                 text := lit "c"; tokens := [of_Z 7];
                 temperature := zero;
                 avg_logprob := zero;
                 compression_ratio := of_Z 1;
                 no_speech_prob := zero |}
    /\ r_text r = trim (r_text sample_a ++ lit " " ++ r_text sample_b)
    /\ (forall a ta tb b,
          r_text sample_a = a :: ta -> is_white_space a = false ->
          r_text sample_b = tb ++ [b] -> is_white_space b = false ->
          r_text r = r_text sample_a ++ lit " " ++ r_text sample_b).
Proof.
  repeat (split; [reflexivity|]).
  exact (@two_chunks_are_merged sample_a sample_b
           [sample_segment 0 0 4 "a"] (sample_segment 1 4 10 "b")
           [] (sample_segment 0 0 2 "c") []
           eq_refl eq_refl eq_refl eq_refl eq_refl).
Defined.

(** C1, as stated, fails on the text: the leading space of [A]'s text is
    trimmed away. *)
Lemma two_chunks_text_is_trimmed :
  segments sample_a_padded
  = [sample_segment 0 0 4 "a"] ++ [sample_segment 1 4 10 "b"]
  /\ end_ (sample_segment 1 4 10 "b") = of_Z 10
  /\ segments sample_b = [] ++ sample_segment 0 0 2 "c" :: []
  /\ start (sample_segment 0 0 2 "c") = zero
  /\ end_ (sample_segment 0 0 2 "c") = of_Z 2
  /\ exists r,
       combineTranscriptions [sample_a_padded; sample_b] = inr r
       /\ r_text r = lit "a b c"
       /\ r_text sample_a_padded ++ lit " " ++ r_text sample_b = lit " a b c"
       /\ r_text r <> r_text sample_a_padded ++ lit " " ++ r_text sample_b.
Proof.
  repeat (split; [reflexivity|]).
  eexists. split; [reflexivity|].
  split; [reflexivity|]. split; [reflexivity|]. discriminate.
Qed.

(* ===================================================================== *)
(** * The order on numbers, [Math.max] *)
(* ===================================================================== *)

(** [SFcompare] orders numbers by sign, then exponent, then mantissa; on
    everything but NaN it is a total preorder. *)

Ltac compare_cases :=
  repeat match goal with
  | |- context [Pos.compare_cont Eq ?a ?b] =>
      change (Pos.compare_cont Eq a b) with (Pos.compare a b)
  | H : context [Pos.compare_cont Eq ?a ?b] |- _ =>
      change (Pos.compare_cont Eq a b) with (Pos.compare a b) in H
  end;
  repeat match goal with
  | H : context [Z.compare ?a ?b] |- _ =>
      destruct (Z.compare_spec a b); simpl in H; try discriminate H
  | H : context [Pos.compare ?a ?b] |- _ =>
      destruct (Pos.compare_spec a b); simpl in H; try discriminate H
  | |- context [Z.compare ?a ?b] =>
      destruct (Z.compare_spec a b); simpl
  | |- context [Pos.compare ?a ?b] =>
      destruct (Pos.compare_spec a b); simpl
  end;
  subst; try reflexivity; try discriminate; try lia.

Lemma leb_refl x : is_nan x = false -> leb x x = true.
Proof.
  unfold leb, SFleb. destruct x as [[]|[]| |[] m e]; simpl;
    try reflexivity; try discriminate; intros _.
  - rewrite Z.compare_refl.
    change (Pos.compare_cont Eq m m) with (Pos.compare m m).
    now rewrite Pos.compare_refl.
  - rewrite Z.compare_refl.
    change (Pos.compare_cont Eq m m) with (Pos.compare m m).
    now rewrite Pos.compare_refl.
Qed.

Lemma ltb_leb x y : ltb x y = true -> leb x y = true.
Proof.
  unfold ltb, leb, SFltb, SFleb. now destruct (SFcompare x y) as [[]|].
Qed.

Lemma SFcompare_opp x y :
  SFcompare y x = option_map CompOpp (SFcompare x y).
Proof.
  destruct x as [[]|[]| |[] mx ex], y as [[]|[]| |[] my ey]; simpl;
    try reflexivity;
    change (Pos.compare_cont Eq my mx) with (Pos.compare my mx);
    change (Pos.compare_cont Eq mx my) with (Pos.compare mx my);
    rewrite (Z.compare_antisym ex ey), (Pos.compare_antisym mx my);
    destruct (Z.compare ex ey), (Pos.compare mx my); reflexivity.
Qed.

(** On numbers other than NaN, [x < y] or [y <= x]. *)
Lemma not_ltb_leb x y :
  is_nan x = false -> is_nan y = false ->
  ltb x y = false -> leb y x = true.
Proof.
  unfold ltb, leb, SFltb, SFleb. rewrite (SFcompare_opp x y).
  destruct x as [[]|[]| |[] mx ex], y as [[]|[]| |[] my ey]; simpl;
    try discriminate; try reflexivity; intros _ _;
    destruct (Z.compare ex ey), (Pos.compare_cont Eq mx my); simpl;
    try discriminate; reflexivity.
Qed.

Lemma leb_trans x y z :
  leb x y = true -> leb y z = true -> leb x z = true.
Proof.
  unfold leb, SFleb.
  destruct x as [[]|[]| |[] mx ex], y as [[]|[]| |[] my ey],
           z as [[]|[]| |[] mz ez]; simpl;
    try discriminate; try reflexivity; intros Hxy Hyz; compare_cases.
Qed.

Lemma leb_neg_infinity x :
  leb x (S754_infinity true) = true -> x = S754_infinity true.
Proof. destruct x as [[]|[]| |[] m e]; simpl; try discriminate; reflexivity. Qed.

Lemma Math_max_from_spec args : forall highest,
  is_nan highest = false ->
  Forall (fun x => is_nan x = false) args ->
  (Math_max_from highest args = highest
   \/ In (Math_max_from highest args) args)
  /\ leb highest (Math_max_from highest args) = true
  /\ Forall (fun x => leb x (Math_max_from highest args) = true) args.
Proof.
  induction args as [|x args IH]; intros highest Hh Hargs; simpl.
  - split; [now left|]. split; [now apply leb_refl | constructor].
  - inversion Hargs as [|? ? Hx Hrest]; subst. rewrite Hx.
    set (h1 := match x, highest with
               | S754_zero false, S754_zero true => x
               | _, _ => highest
               end).
    set (h2 := if ltb h1 x then x else h1).
    assert (H1 : (h1 = highest \/ h1 = x) /\ leb highest h1 = true
                 /\ is_nan h1 = false).
    { subst h1. destruct x as [[]| | |], highest as [[]| | |];
        try discriminate; simpl; (split; [auto|]); split;
        try reflexivity; try (apply leb_refl; reflexivity). }
    destruct H1 as (H1 & Hle1 & Hn1).
    assert (H2 : (h2 = h1 \/ h2 = x) /\ leb h1 h2 = true
                 /\ leb x h2 = true /\ is_nan h2 = false).
    { subst h2. destruct (ltb h1 x) eqn:E.
      - split; [now right|]. split; [now apply ltb_leb|].
        split; [now apply leb_refl | exact Hx].
      - split; [now left|]. split; [now apply leb_refl|].
        split; [now apply not_ltb_leb | exact Hn1]. }
    destruct H2 as (H2 & Hle2 & Hxle & Hn2).
    destruct (IH h2 Hn2 Hrest) as (Hin & Hle & Hall).
    split; [|split].
    + destruct Hin as [-> | Hin]; [|now right; right].
      destruct H2 as [-> | ->]; [|now right; left].
      destruct H1 as [-> | ->]; [now left | now right; left].
    + eapply leb_trans; [exact Hle1|]. eapply leb_trans; eassumption.
    + constructor; [|exact Hall]. eapply leb_trans; eassumption.
Qed.

(** [Math.max] of a non-empty list without NaN is an element of the list
    that no element exceeds. *)
Lemma Math_max_spec args :
  args <> [] ->
  Forall (fun x => is_nan x = false) args ->
  In (Math_max args) args
  /\ Forall (fun x => leb x (Math_max args) = true) args.
Proof.
  intros Hne Hargs. unfold Math_max.
  destruct (@Math_max_from_spec args (S754_infinity true) eq_refl Hargs)
    as (Hin & _ & Hall).
  split; [|exact Hall].
  destruct Hin as [E | Hin]; [|exact Hin].
  rewrite E in *. destruct args as [|x args]; [contradiction|].
  apply Forall_inv in Hall. apply leb_neg_infinity in Hall. now left.
Qed.

(** [Math.max] is NaN as soon as an argument is. *)
Lemma Math_max_nan args :
  Exists (fun x => is_nan x = true) args -> Math_max args = S754_nan.
Proof.
  unfold Math_max. generalize (S754_infinity true).
  induction args as [|x args IH]; intros highest Hex.
  - inversion Hex.
  - simpl. destruct (is_nan x) eqn:E; [reflexivity|].
    apply IH. inversion Hex; subst; [congruence | assumption].
Qed.

(* ===================================================================== *)
(** * [Math.round] *)
(* ===================================================================== *)

Section MathRound.

Local Open Scope Z_scope.

(** The binary digits of a mantissa. *)
Lemma digits2_pos_bounds m :
  2 ^ (Zpos (digits2_pos m) - 1) <= Zpos m < 2 ^ Zpos (digits2_pos m).
Proof.
  induction m as [m IH|m IH|]; cbn [digits2_pos].
  - rewrite Pos2Z.inj_succ.
    replace (Z.succ (Zpos (digits2_pos m)) - 1)
      with (Z.succ (Zpos (digits2_pos m) - 1)) by lia.
    rewrite !Z.pow_succ_r by lia. lia.
  - rewrite Pos2Z.inj_succ.
    replace (Z.succ (Zpos (digits2_pos m)) - 1)
      with (Z.succ (Zpos (digits2_pos m) - 1)) by lia.
    rewrite !Z.pow_succ_r by lia. lia.
  - simpl. lia.
Qed.

Lemma digits2_pos_le m k :
  0 <= k -> Zpos m < 2 ^ k -> Zpos (digits2_pos m) <= k.
Proof.
  intros Hk Hm. destruct (digits2_pos_bounds m) as [Hlo _].
  destruct (Z_le_gt_dec (Zpos (digits2_pos m)) k) as [H|H]; [exact H|].
  assert (2 ^ k <= 2 ^ (Zpos (digits2_pos m) - 1))
    by (apply Z.pow_le_mono_r; lia).
  lia.
Qed.

Lemma iter_xO_spec d m :
  Zpos (Pos.iter xO m d) = Zpos m * 2 ^ Zpos d
  /\ digits2_pos (Pos.iter xO m d) = (digits2_pos m + d)%positive.
Proof.
  induction d as [|d IH] using Pos.peano_ind.
  - simpl. split; [lia|]. now rewrite Pos.add_1_r.
  - rewrite Pos.iter_succ. destruct IH as [IHv IHd]. split.
    + rewrite Pos2Z.inj_xO, IHv, Pos2Z.inj_succ, Z.pow_succ_r by lia. lia.
    + cbn [digits2_pos]. rewrite IHd. lia.
Qed.

(** A mantissa of 53 digits is not rounded. *)
Lemma binary_round_aux_exact sx mz ez :
  Zpos (digits2_pos mz) = prec ->
  -1074 <= ez <= 971 ->
  binary_round_aux prec emax sx (Zpos mz) ez loc_Exact = S754_finite sx mz ez.
Proof.
  intros Hd He.
  unfold binary_round_aux, shr_fexp.
  cbn [shr_record_of_loc Zdigits2]. rewrite Hd.
  assert (Hf : fexp prec emax (prec + ez) - ez = 0).
  { unfold fexp, emin, prec, emax. lia. }
  rewrite Hf. cbn [shr shr_m loc_of_shr_record round_nearest_even
                   shr_record_of_loc Zdigits2].
  rewrite Hd, Hf. cbn [shr shr_m].
  assert (Hle : (ez <=? emax - prec) = true)
    by (apply Z.leb_le; unfold emax, prec; lia).
  now rewrite Hle.
Qed.

Lemma binary_round_exact sx p :
  Zpos p < 2 ^ prec ->
  exists m e,
    binary_round prec emax sx p 0 = S754_finite sx m e
    /\ e <= 0 /\ Zpos m = Zpos p * 2 ^ (- e).
Proof.
  intros Hp. unfold binary_round, shl_align.
  assert (Hd : Zpos (digits2_pos p) <= prec)
    by (apply digits2_pos_le; [unfold prec; lia | exact Hp]).
  assert (Hf : fexp prec emax (Zpos (digits2_pos p) + 0)
               = Zpos (digits2_pos p) - prec).
  { unfold fexp, emin, prec, emax in *. lia. }
  rewrite Hf, Z.sub_0_r.
  destruct (Zpos (digits2_pos p) - prec) as [|d|d] eqn:E; [| lia |].
  - exists p, 0. rewrite binary_round_aux_exact; [|lia|lia].
    split; [reflexivity|]. split; [lia|]. simpl. lia.
  - destruct (iter_xO_spec d p) as [Hv Hdig].
    exists (Pos.iter xO p d), (Zneg d).
    rewrite binary_round_aux_exact.
    + split; [reflexivity|]. split; [lia|]. rewrite Hv. reflexivity.
    + rewrite Hdig, Pos2Z.inj_add. lia.
    + unfold prec in *. lia.
Qed.

(** An integer below [2 ^ 53] in absolute value is a number, exactly. *)
Lemma of_Z_whole n : Z.abs n < 2 ^ prec -> is_whole (of_Z n) n.
Proof.
  intros Hn. unfold of_Z, binary_normalize.
  destruct n as [|p|p].
  - reflexivity.
  - destruct (@binary_round_exact false p Hn) as (m & e & -> & He & Hm).
    cbn [is_whole signed]. rewrite Z.max_l, Z.max_r by lia.
    rewrite Hm. simpl. lia.
  - destruct (@binary_round_exact true p Hn) as (m & e & -> & He & Hm).
    cbn [is_whole signed]. rewrite Z.max_l, Z.max_r by lia.
    rewrite Z.pow_0_r, Z.mul_1_r.
    change (Zneg m) with (- Zpos m). rewrite Hm.
    change (Zneg p) with (- Zpos p). lia.
Qed.

(** The mantissa of a binary64 number is below [2 ^ 53]. *)
Lemma valid_mantissa m e :
  bounded prec emax m e = true -> Zpos m < 2 ^ prec.
Proof.
  unfold bounded, canonical_mantissa. intros H.
  apply andb_true_iff in H. destruct H as [H _]. apply Z.eqb_eq in H.
  destruct (digits2_pos_bounds m) as [_ Hhi].
  assert (Zpos (digits2_pos m) <= prec)
    by (unfold fexp, emin, prec, emax in *; lia).
  assert (2 ^ Zpos (digits2_pos m) <= 2 ^ prec)
    by (apply Z.pow_le_mono_r; lia).
  lia.
Qed.

(** [Math.round] rounds a binary64 number to the nearest whole number. *)
Lemma Math_round_spec x :
  valid_binary prec emax x = true -> rounds_to x (Math_round x).
Proof.
  destruct x as [s|s| |s m e]; intros Hvalid; cbn [rounds_to Math_round];
    try reflexivity.
  - exists 0. split; reflexivity.
  - cbn [valid_binary] in Hvalid. apply valid_mantissa in Hvalid.
    destruct e as [|e|k].
    + exists (signed s m). cbn [is_whole nearest_whole]. simpl Z.max.
      rewrite !Z.pow_0_r. split; lia.
    + exists (signed s m * 2 ^ Zpos e). cbn [is_whole nearest_whole].
      rewrite Z.max_r, Z.max_l by lia. rewrite Z.pow_0_r. split; lia.
    + rewrite Z.pow_pos_fold.
      assert (Hd : 2 <= 2 ^ Zpos k).
      { change 2 with (2 ^ 1) at 1. apply Z.pow_le_mono_r; lia. }
      set (d := 2 ^ Zpos k) in *.
      fold (signed s m).
      assert (Hsm : Z.abs (signed s m) = Zpos m) by (destruct s; reflexivity).
      destruct (Z.eqb_spec (Zpos m mod d) 0) as [Hmod|Hmod].
      * exists (signed s m / d).
        assert (Hdiv : signed s m = d * (signed s m / d)).
        { apply Z.div_exact; [lia|].
          destruct s; cbn [signed]; [|exact Hmod].
          change (Zneg m) with (- Zpos m).
          apply Z.mod_opp_l_z; [lia | exact Hmod]. }
        cbn [is_whole nearest_whole]. cbn [Z.max Z.opp Z.compare].
        fold d. rewrite Z.pow_0_r. split; nia.
      * set (n := (2 * signed s m + d) / (2 * d)).
        assert (Hn : 2 * d * n <= 2 * signed s m + d < 2 * d * (n + 1)).
        { subst n. split.
          - apply Z.mul_div_le. lia.
          - replace (2 * d * ((2 * signed s m + d) / (2 * d) + 1))
              with (2 * d * Z.succ ((2 * signed s m + d) / (2 * d))) by lia.
            apply Z.mul_succ_div_gt. lia. }
        exists n. split.
        -- destruct (Z.eqb_spec n 0) as [->|Hn0]; [reflexivity|].
           apply of_Z_whole. unfold prec in *.
           change (2 ^ 53) with 9007199254740992 in *.
           assert (Hx : - 9007199254740992 < signed s m < 9007199254740992)
             by lia.
           clearbody n d. generalize dependent (signed s m). intros x _ Hn Hx.
           apply Z.abs_lt. split.
           ++ destruct (Z_lt_ge_dec (- 9007199254740992) n) as [H|H];
                [exact H | exfalso].
              assert (2 * d * (n + 1) <= 2 * d * (- 9007199254740992 + 1))
                by (apply Z.mul_le_mono_nonneg_l; lia).
              lia.
           ++ destruct (Z_lt_ge_dec n 9007199254740992) as [H|H];
                [exact H | exfalso].
              assert (2 * d * 9007199254740992 <= 2 * d * n)
                by (apply Z.mul_le_mono_nonneg_l; lia).
              lia.
        -- cbn [nearest_whole]. cbn [Z.max Z.opp Z.compare]. fold d.
           rewrite Z.pow_0_r. lia.
Qed.

End MathRound.

(* ===================================================================== *)
(** * The submission handler *)
(* ===================================================================== *)

Section HandlerFacts.

Variable Row : Type.
Variable getUserWithTeam : Z -> result (option UserWithTeam).
Variable groq_create : File -> GroqOutcome.
Variable saveTranscription : TranscriptionData -> result Row.
Variable toFixed3 : number -> number.

Local Abbreviation handler :=
  (processTranscription getUserWithTeam groq_create saveTranscription toFixed3).
Local Abbreviation successes := (successes_from groq_create).
Local Abbreviation failures := (failures_from groq_create).

(** The loop over the chunks never throws: it calls the provider once per
    chunk, in order, and sorts the outcomes into its two arrays. *)
Lemma transcribeChunks_run fileName remaining :
  forall i transcriptionResults errors,
    transcribeChunks groq_create fileName remaining i transcriptionResults errors
    = (groq_calls fileName i remaining,
       inr (transcriptionResults ++ successes fileName i remaining,
            errors ++ failures fileName i remaining)).
Proof.
  induction remaining as [|chunk remaining IH];
    intros i transcriptionResults errors; simpl.
  - now rewrite !app_nil_r.
  - unfold outcome_of, transcribeAudio. cbn [snd].
    destruct (groq_create (blobToFile chunk (chunkName i fileName)));
      simpl; rewrite IH; simpl; now rewrite <- !app_assoc.
Qed.

Lemma groq_calls_no_save fileName remaining : forall i,
  existsb is_save (groq_calls fileName i remaining) = false.
Proof. induction remaining; intros i; simpl; auto. Qed.

(** As many successes and failures as chunks. *)
Lemma successes_failures_length fileName remaining : forall i,
  length (successes fileName i remaining)
  + length (failures fileName i remaining) = length remaining.
Proof.
  induction remaining as [|chunk remaining IH]; intros i; simpl; trivial.
  destruct (outcome_of groq_create fileName i chunk); simpl;
    specialize (IH (S i)); lia.
Qed.

(** Merging a non-empty list does not throw. *)
Lemma combineTranscriptions_total l :
  l <> [] -> exists combined, combineTranscriptions l = inr combined.
Proof.
  destruct l as [|t1 [|t2 l]]; [contradiction| |]; intros _; eexists;
    reflexivity.
Qed.

(** The handler once the user has a team and the payload is accepted, when
    no chunk was transcribed: it reports the failure and saves nothing. *)
Lemma handler_run_nothing file userId userWithTeam team processedAudio :
  getUserWithTeam userId = inr userWithTeam ->
  team_of userWithTeam = Some team ->
  processAudioFile file = inr processedAudio ->
  successes (fileName processedAudio) 0 (chunks processedAudio) = [] ->
  handler file userId
  = (CallGetUserWithTeam userId
       :: groq_calls (fileName processedAudio) 0 (chunks processedAudio),
     inr {| error :=
              Some (lit "Failed to transcribe any part of the audio file");
            success := None;
            transcription := None |}).
Proof.
  intros Huser Hteam Hfile Hnone. unfold processTranscription.
  rewrite Huser. cbn [bind try_catch]. rewrite Hteam, Hfile.
  cbn [lift bind]. rewrite transcribeChunks_run. cbn [app]. rewrite Hnone.
  cbn [bind length Nat.eqb throw try_catch ret]. now rewrite !app_nil_r.
Qed.

(** The same, when some chunk was transcribed: the successes are merged and
    one record is saved. *)
Lemma handler_run_some file userId userWithTeam team processedAudio
    combinedTranscription :
  getUserWithTeam userId = inr userWithTeam ->
  team_of userWithTeam = Some team ->
  processAudioFile file = inr processedAudio ->
  combineTranscriptions
    (successes (fileName processedAudio) 0 (chunks processedAudio))
  = inr combinedTranscription ->
  handler file userId
  = (CallGetUserWithTeam userId
       :: groq_calls (fileName processedAudio) 0 (chunks processedAudio)
       ++ [CallSaveTranscription
             (transcriptionData toFixed3 team userId processedAudio
                combinedTranscription
                (failures (fileName processedAudio) 0 (chunks processedAudio)))],
     match saveTranscription
             (transcriptionData toFixed3 team userId processedAudio
                combinedTranscription
                (failures (fileName processedAudio) 0 (chunks processedAudio)))
     with
     | inr saved =>
         inr {| success :=
                  Some (if (0 <? length (failures (fileName processedAudio) 0
                                           (chunks processedAudio)))%nat
                        then lit "Transcription completed with some errors"
                        else lit "Transcription completed successfully");
                transcription := Some saved;
                error :=
                  if (0 <? length (failures (fileName processedAudio) 0
                                     (chunks processedAudio)))%nat
                  then Some (join newline
                               (failures (fileName processedAudio) 0
                                  (chunks processedAudio)))
                  else None |}
     | inl e =>
         inr {| error :=
                  Some (message_or
                          (lit "Failed to process transcription. Please try again.")
                          e);
                success := None;
                transcription := None |}
     end).
Proof.
  intros Huser Hteam Hfile Hcombined. unfold processTranscription.
  rewrite Huser. cbn [bind try_catch]. rewrite Hteam, Hfile.
  cbn [lift bind]. rewrite transcribeChunks_run. cbn [app].
  destruct (successes (fileName processedAudio) 0 (chunks processedAudio))
    as [|t1 rest]; [discriminate|].
  cbn [bind length Nat.eqb]. rewrite Hcombined. cbn [lift bind].
  destruct (saveTranscription _); simpl; rewrite ?app_nil_r; reflexivity.
Qed.

(** A response carries a saved record only when the provider transcribed
    some chunk, the successes were merged and the store accepted the
    record. *)
Lemma handler_saved file userId response row :
  snd (handler file userId) = inr response ->
  transcription response = Some row ->
  exists userWithTeam team processedAudio combinedTranscription,
    getUserWithTeam userId = inr userWithTeam
    /\ team_of userWithTeam = Some team
    /\ processAudioFile file = inr processedAudio
    /\ combineTranscriptions
         (successes (fileName processedAudio) 0 (chunks processedAudio))
       = inr combinedTranscription
    /\ saveTranscription
         (transcriptionData toFixed3 team userId processedAudio
            combinedTranscription
            (failures (fileName processedAudio) 0 (chunks processedAudio)))
       = inr row.
Proof.
  intros Hrun Hrow.
  destruct (getUserWithTeam userId) as [e|userWithTeam] eqn:Huser.
  { unfold processTranscription in Hrun. rewrite Huser in Hrun.
    simpl in Hrun. injection Hrun as <-. discriminate. }
  destruct (team_of userWithTeam) as [team|] eqn:Hteam.
  2: { unfold processTranscription in Hrun. rewrite Huser in Hrun.
       cbn [bind try_catch] in Hrun. rewrite Hteam in Hrun.
       simpl in Hrun. injection Hrun as <-. discriminate. }
  destruct (processAudioFile file) as [e|processedAudio] eqn:Hfile.
  { unfold processTranscription in Hrun. rewrite Huser in Hrun.
    cbn [bind try_catch] in Hrun. rewrite Hteam, Hfile in Hrun.
    simpl in Hrun. injection Hrun as <-. discriminate. }
  destruct (successes (fileName processedAudio) 0 (chunks processedAudio))
    as [|t1 rest] eqn:Hsome.
  { rewrite (handler_run_nothing _ Huser Hteam Hfile Hsome) in Hrun.
    simpl in Hrun. injection Hrun as <-. discriminate. }
  destruct (@combineTranscriptions_total (t1 :: rest))
    as [combined Hcombined]; [discriminate|].
  rewrite <- Hsome in Hcombined.
  rewrite (handler_run_some _ Huser Hteam Hfile Hcombined) in Hrun.
  cbn [snd] in Hrun.
  exists userWithTeam, team, processedAudio, combined.
  rewrite Hsome, <- Hsome. repeat (split; [trivial|]).
  destruct (saveTranscription _) as [e|saved].
  - injection Hrun as <-. discriminate.
  - injection Hrun as <-. simpl in Hrow. now injection Hrow as <-.
Qed.

(** The handler itself never throws: what goes wrong is reported in the
    response. *)
Lemma handler_total file userId :
  exists response, snd (handler file userId) = inr response.
Proof.
  destruct (getUserWithTeam userId) as [e|userWithTeam] eqn:Huser.
  { unfold processTranscription. rewrite Huser. simpl. eauto. }
  destruct (team_of userWithTeam) as [team|] eqn:Hteam.
  2: { unfold processTranscription. rewrite Huser.
       cbn [bind try_catch]. rewrite Hteam. simpl. eauto. }
  destruct (processAudioFile file) as [e|processedAudio] eqn:Hfile.
  { unfold processTranscription. rewrite Huser.
    cbn [bind try_catch]. rewrite Hteam, Hfile. simpl. eauto. }
  destruct (successes (fileName processedAudio) 0 (chunks processedAudio))
    as [|t1 rest] eqn:Hsome.
  { rewrite (handler_run_nothing _ Huser Hteam Hfile Hsome). simpl. eauto. }
  destruct (@combineTranscriptions_total (t1 :: rest))
    as [combined Hcombined]; [discriminate|].
  rewrite <- Hsome in Hcombined.
  rewrite (handler_run_some _ Huser Hteam Hfile Hcombined). cbn [snd].
  destruct (saveTranscription _); eauto.
Qed.

Lemma successes_all_fail fileName remaining : forall i,
  (forall j chunk,
     nth_error remaining j = Some chunk ->
     exists e, outcome_of groq_create fileName (i + j) chunk = inl e) ->
  successes fileName i remaining = [].
Proof.
  induction remaining as [|chunk remaining IH]; intros i Hall; simpl.
  - reflexivity.
  - destruct (Hall 0 chunk eq_refl) as [e He].
    rewrite Nat.add_0_r in He. rewrite He. apply IH.
    intros j c Hj. replace (S i + j) with (i + S j) by lia.
    now apply Hall.
Qed.

End HandlerFacts.

Section HandlerClaims.

Variable Row : Type.
Variable getUserWithTeam : Z -> result (option UserWithTeam).
Variable groq_create : File -> GroqOutcome.
Variable saveTranscription : TranscriptionData -> result Row.
Variable toFixed3 : number -> number.

Local Abbreviation handler :=
  (processTranscription getUserWithTeam groq_create saveTranscription toFixed3).

(** C7. When the transcription of every chunk fails, the handler answers
    with the error ['Failed to transcribe any part of the audio file'] (the
    specification's [NoTranscriptsAvailable]) after one provider call per
    chunk, and [saveTranscription] is never called.  The merger, for its
    part, throws ['No transcriptions to combine'] on an empty list. *)
Theorem all_chunks_fail file userId userWithTeam team processedAudio :
  getUserWithTeam userId = inr userWithTeam ->
  team_of userWithTeam = Some team ->
  processAudioFile file = inr processedAudio ->
  (forall i chunk,
     nth_error (chunks processedAudio) i = Some chunk ->
     exists e,
       outcome_of groq_create (fileName processedAudio) i chunk = inl e) ->
  snd (handler file userId)
  = inr {| error := Some (lit "Failed to transcribe any part of the audio file");
           success := None;
           transcription := None |}
  /\ fst (handler file userId)
     = CallGetUserWithTeam userId
         :: groq_calls (fileName processedAudio) 0 (chunks processedAudio)
  /\ existsb is_save (fst (handler file userId)) = false
  /\ combineTranscriptions []
     = inl (Error (lit "No transcriptions to combine")).
Proof.
  intros Huser Hteam Hfile Hfail.
  assert (Hnone : successes_from groq_create (fileName processedAudio) 0
                    (chunks processedAudio) = []).
  { apply successes_all_fail. intros j chunk Hj. now apply Hfail. }
  rewrite (@handler_run_nothing Row getUserWithTeam groq_create
             saveTranscription toFixed3 file userId userWithTeam team
             processedAudio Huser Hteam Hfile Hnone).
  cbn [fst snd existsb is_save orb].
  repeat split. apply groq_calls_no_save.
Qed.

(** C6. With three chunks of which only the second fails, the provider is
    called for all three, in order; the record handed to the store is built
    from the merge of the first and the third transcript, in that order; its
    status is ['partial'] and its error log is the message of the failure,
    which names "segment 2". *)
Theorem middle_chunk_fails file userId userWithTeam team processedAudio
    c1 c2 c3 t1 e2 t3 :
  getUserWithTeam userId = inr userWithTeam ->
  team_of userWithTeam = Some team ->
  processAudioFile file = inr processedAudio ->
  chunks processedAudio = [c1; c2; c3] ->
  outcome_of groq_create (fileName processedAudio) 0 c1 = inr t1 ->
  outcome_of groq_create (fileName processedAudio) 1 c2 = inl e2 ->
  outcome_of groq_create (fileName processedAudio) 2 c3 = inr t3 ->
  exists combined data errorLog,
    combineTranscriptions [t1; t3] = inr combined
    /\ fst (handler file userId)
       = [ CallGetUserWithTeam userId;
           CallGroq (blobToFile c1 (chunkName 0 (fileName processedAudio)));
           CallGroq (blobToFile c2 (chunkName 1 (fileName processedAudio)));
           CallGroq (blobToFile c3 (chunkName 2 (fileName processedAudio)));
           CallSaveTranscription data ]
    /\ d_originalText data = r_text combined
    /\ length (d_segments data) = length (segments combined)
    /\ d_language data = language combined
    /\ d_status data = lit "partial"
    /\ d_errorLog data = Some errorLog
    /\ errorLog
       = lit "Failed to transcribe segment 2: "
           ++ message_or (lit "Unknown error") e2
    /\ includes errorLog (lit "segment 2")
    /\ forall saved,
         saveTranscription data = inr saved ->
         snd (handler file userId)
         = inr {| error := Some errorLog;
                  success := Some (lit "Transcription completed with some errors");
                  transcription := Some saved |}.
Proof.
  intros Huser Hteam Hfile Hchunks H1 H2 H3.
  assert (Hsuccesses : successes_from groq_create (fileName processedAudio) 0
                         (chunks processedAudio) = [t1; t3]).
  { rewrite Hchunks. simpl. now rewrite H1, H2, H3. }
  assert (Hfailures : failures_from groq_create (fileName processedAudio) 0
                        (chunks processedAudio) = [chunkFailure 1 e2]).
  { rewrite Hchunks. simpl. now rewrite H1, H2, H3. }
  destruct (@combineTranscriptions_total [t1; t3]) as [combined Hcombined];
    [discriminate|].
  pose proof Hcombined as Hrun. rewrite <- Hsuccesses in Hrun.
  apply (@handler_run_some Row getUserWithTeam groq_create
            saveTranscription toFixed3 file userId userWithTeam team
            processedAudio combined Huser Hteam Hfile) in Hrun.
  rewrite Hfailures, Hchunks in Hrun.
  exists combined.
  exists (transcriptionData toFixed3 team userId processedAudio combined
            [chunkFailure 1 e2]).
  exists (chunkFailure 1 e2).
  rewrite Hrun. cbn [fst snd].
  split; [exact Hcombined|]. split; [reflexivity|].
  split; [reflexivity|].
  split; [cbn [transcriptionData d_segments]; apply length_map|].
  split; [reflexivity|]. split; [reflexivity|]. split; [reflexivity|].
  split; [reflexivity|]. split.
  - exists (lit "Failed to transcribe "),
           (lit ": " ++ message_or (lit "Unknown error") e2).
    reflexivity.
  - intros saved Hsaved. rewrite Hsaved. reflexivity.
Qed.

(** C8. When a submission succeeds, the duration of the record handed to the
    store is the largest end time among the segments of the combined
    transcript (an end time that no other exceeds) rounded to the nearest
    whole number: the duration is a whole number [n] with
    [n - 1/2 <= longest < n + 1/2]; it is [Math.round] of that end time.  It
    is 0 when the combined transcript has no segment.  Should an end time be
    NaN, the maximum and the duration are NaN. *)
Theorem duration_is_rounded_maximum file userId response saved :
  snd (handler file userId) = inr response ->
  transcription response = Some saved ->
  exists processedAudio combined data,
    processAudioFile file = inr processedAudio
    /\ combineTranscriptions
         (successes_from groq_create (fileName processedAudio) 0
            (chunks processedAudio))
       = inr combined
    /\ In (CallSaveTranscription data) (fst (handler file userId))
    /\ saveTranscription data = inr saved
    /\ d_originalText data = r_text combined
    /\ (segments combined = [] -> d_duration data = zero)
    /\ (segments combined <> [] ->
        Forall (fun s => is_nan (end_ s) = false) (segments combined) ->
        exists longest,
          In longest (map end_ (segments combined))
          /\ Forall (fun s => leb (end_ s) longest = true) (segments combined)
          /\ d_duration data = Math_round longest
          /\ (valid_binary prec emax longest = true ->
              rounds_to longest (d_duration data)))
    /\ (Exists (fun s => is_nan (end_ s) = true) (segments combined) ->
        d_duration data = S754_nan).
Proof.
  intros Hrun Hsaved.
  destruct (@handler_saved Row getUserWithTeam groq_create
              saveTranscription toFixed3 file userId response saved
              Hrun Hsaved)
    as (userWithTeam & team & processedAudio & combined
        & Huser & Hteam & Hfile & Hcombined & Hsave).
  exists processedAudio, combined.
  eexists. split; [exact Hfile|]. split; [exact Hcombined|].
  split.
  { rewrite (@handler_run_some Row getUserWithTeam groq_create
               saveTranscription toFixed3 file userId userWithTeam team
               processedAudio combined Huser Hteam Hfile Hcombined).
    cbn [fst]. right. apply in_or_app. right. left. reflexivity. }
  split; [exact Hsave|]. split; [reflexivity|].
  cbn [transcriptionData d_duration]. unfold totalDuration.
  split; [|split].
  - intros ->. reflexivity.
  - intros Hne Hnan.
    destruct (segments combined) as [|s segs] eqn:E; [contradiction|].
    cbn [length Nat.ltb Nat.leb]. rewrite <- E in *.
    destruct (@Math_max_spec (map end_ (segments combined))) as [Hin Hle].
    + rewrite E. discriminate.
    + now apply Forall_map.
    + exists (Math_max (map end_ (segments combined))).
      split; [exact Hin|]. split; [now apply Forall_map in Hle|].
      split; [reflexivity | apply Math_round_spec].
  - intros Hex.
    destruct (segments combined) as [|s segs] eqn:E; [inversion Hex|].
    cbn [length Nat.ltb Nat.leb]. rewrite <- E in *.
    rewrite Math_max_nan; [reflexivity|]. now apply Exists_map.
Qed.

End HandlerClaims.

Lemma all_chunks_fail_witness :
  sample_user 7 = inr (Some {| teamId := Some 1%Z |})
  /\ team_of (Some {| teamId := Some 1%Z |}) = Some 1%Z
  /\ processAudioFile (zero_file 3) = inr (one_chunk (zero_file 3))
  /\ (forall i chunk,
        nth_error (chunks (one_chunk (zero_file 3))) i = Some chunk ->
        exists e,
          outcome_of groq_down (fileName (one_chunk (zero_file 3))) i chunk
          = inl e)
  /\ snd (processTranscription sample_user groq_down sample_save
            (fun x => x) (zero_file 3) 7)
     = inr {| error :=
                Some (lit "Failed to transcribe any part of the audio file");
              success := None;
              transcription := None |}
  /\ existsb is_save
       (fst (processTranscription sample_user groq_down sample_save
               (fun x => x) (zero_file 3) 7)) = false.
Proof.
  assert (H1 : sample_user 7 = inr (Some {| teamId := Some 1%Z |}))
    by reflexivity.
  assert (H2 : team_of (Some {| teamId := Some 1%Z |}) = Some 1%Z)
    by reflexivity.
  assert (H3 : processAudioFile (zero_file 3) = inr (one_chunk (zero_file 3)))
    by reflexivity.
  assert (H4 : forall i chunk,
             nth_error (chunks (one_chunk (zero_file 3))) i = Some chunk ->
             exists e,
               outcome_of groq_down (fileName (one_chunk (zero_file 3))) i chunk
               = inl e).
  { intros i chunk _. eexists. reflexivity. }
  repeat (split; [assumption|]).
  destruct (@all_chunks_fail unit sample_user groq_down sample_save
              (fun x => x) (zero_file 3) 7 _ _ _ H1 H2 H3 H4)
    as (Hresponse & _ & Hsave & _).
  split; [exact Hresponse | exact Hsave].
Defined.

Lemma middle_chunk_fails_witness :
  sample_user 7 = inr (Some {| teamId := Some 1%Z |})
  /\ team_of (Some {| teamId := Some 1%Z |}) = Some 1%Z
  /\ processAudioFile big_file = inr (three_chunks big_file)
  /\ chunks (three_chunks big_file)
     = [ file_range big_file 0 MAX_CHUNK_SIZE;
         file_range big_file MAX_CHUNK_SIZE (2 * MAX_CHUNK_SIZE);
         file_range big_file (2 * MAX_CHUNK_SIZE) (file_size big_file) ]
  /\ outcome_of groq_flaky (fileName (three_chunks big_file)) 0
       (file_range big_file 0 MAX_CHUNK_SIZE) = inr sample_b
  /\ outcome_of groq_flaky (fileName (three_chunks big_file)) 1
       (file_range big_file MAX_CHUNK_SIZE (2 * MAX_CHUNK_SIZE))
     = inl (Error (lit "Request timed out"))
  /\ outcome_of groq_flaky (fileName (three_chunks big_file)) 2
       (file_range big_file (2 * MAX_CHUNK_SIZE) (file_size big_file))
     = inr sample_b
  /\ exists data,
       nth_error (fst (processTranscription sample_user groq_flaky sample_save
                         (fun x => x) big_file 7)) 4
       = Some (CallSaveTranscription data)
       /\ d_originalText data = lit "c c"
       /\ d_status data = lit "partial"
       /\ d_errorLog data
          = Some (lit "Failed to transcribe segment 2: Request timed out").
Proof.
  assert (H1 : sample_user 7 = inr (Some {| teamId := Some 1%Z |}))
    by reflexivity.
  assert (H2 : team_of (Some {| teamId := Some 1%Z |}) = Some 1%Z)
    by reflexivity.
  assert (H3 : processAudioFile big_file = inr (three_chunks big_file)).
  { apply processAudioFile_three. rewrite file_size_zero_file.
    split; [reflexivity | apply N.leb_le; reflexivity]. }
  assert (H4 : chunks (three_chunks big_file)
               = [ file_range big_file 0 MAX_CHUNK_SIZE;
                   file_range big_file MAX_CHUNK_SIZE (2 * MAX_CHUNK_SIZE);
                   file_range big_file (2 * MAX_CHUNK_SIZE)
                     (file_size big_file) ])
    by reflexivity.
  assert (H5 : outcome_of groq_flaky (fileName (three_chunks big_file)) 0
                 (file_range big_file 0 MAX_CHUNK_SIZE) = inr sample_b)
    by reflexivity.
  assert (H6 : outcome_of groq_flaky (fileName (three_chunks big_file)) 1
                 (file_range big_file MAX_CHUNK_SIZE (2 * MAX_CHUNK_SIZE))
               = inl (Error (lit "Request timed out")))
    by reflexivity.
  assert (H7 : outcome_of groq_flaky (fileName (three_chunks big_file)) 2
                 (file_range big_file (2 * MAX_CHUNK_SIZE)
                    (file_size big_file))
               = inr sample_b)
    by reflexivity.
  repeat (split; [assumption|]).
  destruct (@middle_chunk_fails unit sample_user groq_flaky sample_save
              (fun x => x) big_file 7 _ _ _ _ _ _ _ _ _
              H1 H2 H3 H4 H5 H6 H7)
    as (combined & data & errorLog & Hcombined & Htrace & Htext & _ & _
        & Hstatus & Hlog & HerrorLog & _).
  exists data. rewrite Htrace. split; [reflexivity|].
  split; [|split; [exact Hstatus|]].
  - rewrite Htext. injection Hcombined as <-. reflexivity.
  - rewrite Hlog, HerrorLog. reflexivity.
Defined.

Lemma duration_is_rounded_maximum_witness :
  snd (processTranscription sample_user groq_half sample_save
         (fun x => x) (zero_file 3) 7)
  = inr {| error := None;
           success := Some (lit "Transcription completed successfully");
           transcription := Some tt |}
  /\ transcription
       {| error := None;
          success := Some (lit "Transcription completed successfully");
          transcription := Some tt |} = Some tt
  /\ exists data,
       In (CallSaveTranscription data)
          (fst (processTranscription sample_user groq_half sample_save
                  (fun x => x) (zero_file 3) 7))
       /\ map end_ (segments sample_half)
          = [S754_finite false 5629499534213120 (-51)]
       /\ d_duration data = of_Z 3
       /\ is_whole (d_duration data) 3
       /\ nearest_whole (SFdiv prec emax (of_Z 5) (of_Z 2)) 3.
Proof.
  assert (H1 : snd (processTranscription sample_user groq_half sample_save
                      (fun x => x) (zero_file 3) 7)
               = inr {| error := None;
                        success :=
                          Some (lit "Transcription completed successfully");
                        transcription := Some tt |})
    by reflexivity.
  assert (H2 : transcription
                 {| error := None;
                    success :=
                      Some (lit "Transcription completed successfully");
                    transcription := Some tt |} = Some tt)
    by reflexivity.
  split; [exact H1|]. split; [exact H2|].
  destruct (@duration_is_rounded_maximum unit sample_user groq_half sample_save
              (fun x => x) (zero_file 3) 7 _ _ H1 H2)
    as (processed & combined & data & Hfile & Hcombined & Hin & _ & _ & _
        & Hmax & _).
  exists data. split; [exact Hin|].
  assert (Hp : processAudioFile (zero_file 3) = inr (one_chunk (zero_file 3)))
    by reflexivity.
  rewrite Hp in Hfile. injection Hfile as <-.
  assert (Hc : combineTranscriptions
                 (successes_from groq_half (fileName (one_chunk (zero_file 3)))
                    0 (chunks (one_chunk (zero_file 3))))
               = inr sample_half)
    by reflexivity.
  rewrite Hc in Hcombined. injection Hcombined as <-.
  destruct Hmax as (longest & Hlongest & _ & Hduration & Hrounds).
  - discriminate.
  - repeat constructor.
  - destruct Hlongest as [<- | []].
    split; [reflexivity|].
    split; [rewrite Hduration; reflexivity|].
    pose proof (Hrounds eq_refl) as Hrounded.
    change (exists n,
              is_whole (d_duration data) n
              /\ ((2 * n - 1) * 2251799813685248
                  <= 2 * 5629499534213120 * 1
                  < (2 * n + 1) * 2251799813685248)%Z) in Hrounded.
    destruct Hrounded as (n & Hwhole & Hnear).
    assert (Hn : n = 3%Z) by lia.
    subst n. split; [exact Hwhole|].
    change ((2 * 3 - 1) * 2251799813685248
            <= 2 * 5629499534213120 * 1
            < (2 * 3 + 1) * 2251799813685248)%Z.
    lia.
Defined.

(** [Math.round] on a few values: 2.5, -2.5, -0.5, 0.25, 1.75 and 10. *)
Example Math_round_samples :
  Math_round (S754_finite false 5 (-1)) = of_Z 3
  /\ Math_round (S754_finite true 5 (-1)) = of_Z (-2)
  /\ Math_round (S754_finite true 1 (-1)) = S754_zero true
  /\ Math_round (S754_finite false 1 (-2)) = S754_zero false
  /\ Math_round (S754_finite false 7 (-2)) = of_Z 2
  /\ Math_round (of_Z 10) = of_Z 10.
Proof. repeat split. Qed.

(** [Math.max] prefers [+0] to [-0] and gives NaN when it meets one. *)
Example Math_max_samples :
  Math_max [of_Z 3; of_Z 7; of_Z 5] = of_Z 7
  /\ Math_max [S754_zero true; S754_zero false] = S754_zero false
  /\ Math_max [S754_zero false; S754_zero true] = S754_zero false
  /\ Math_max [of_Z 3; S754_nan; of_Z 5] = S754_nan
  /\ Math_max [of_Z (-3); S754_infinity true] = of_Z (-3).
Proof. repeat split. Qed.

(** White space at both ends goes, white space inside stays. *)
Example trim_samples :
  trim (lit "  a b ") = lit "a b"
  /\ trim (0x00A0 :: 0xFEFF :: lit "a" ++ [0x2028; 0x0009])%N = lit "a"
  /\ trim (lit "   ") = [].
Proof. repeat split. Qed.

(** The chunk loop on a short buffer, and from an offset past its end. *)
Example chunkLoop_samples :
  chunkLoop (lit "audio/wav") [x01; x02; x03] 0 []
  = [ {| blob_bytes := [x01; x02; x03]; blob_type := lit "audio/wav" |} ]
  /\ chunkLoop (lit "audio/wav") [x01; x02; x03] 1 []
     = [ {| blob_bytes := [x02; x03]; blob_type := lit "audio/wav" |} ]
  /\ chunkLoop (lit "audio/wav") [x01; x02; x03] 3 [] = [].
Proof. repeat split. Qed.

(* ===================================================================== *)
(** * More on the chunker: how many chunks, what they carry *)
(* ===================================================================== *)

(** The number of chunks of [n] bytes cut in pieces of [MAX_CHUNK_SIZE]. *)
Lemma ceiling_step n :
  (0 < n)%N ->
  ((n + MAX_CHUNK_SIZE - 1) / MAX_CHUNK_SIZE
   = 1 + (n - N.min MAX_CHUNK_SIZE n + MAX_CHUNK_SIZE - 1) / MAX_CHUNK_SIZE)%N.
Proof.
  intros Hn. pose proof MAX_CHUNK_SIZE_pos as Hpos.
  destruct (N.le_gt_cases n MAX_CHUNK_SIZE) as [Hle|Hgt].
  - replace (n - N.min MAX_CHUNK_SIZE n + MAX_CHUNK_SIZE - 1)%N
      with (MAX_CHUNK_SIZE - 1)%N by lia.
    rewrite (N.div_small (MAX_CHUNK_SIZE - 1)) by lia.
    symmetry. apply (N.div_unique _ _ _ (n - 1)); lia.
  - replace (n + MAX_CHUNK_SIZE - 1)%N
      with ((n - MAX_CHUNK_SIZE + MAX_CHUNK_SIZE - 1) + 1 * MAX_CHUNK_SIZE)%N
      by lia.
    rewrite N.div_add by lia.
    replace (N.min MAX_CHUNK_SIZE n) with MAX_CHUNK_SIZE by lia. lia.
Qed.

Lemma chunkLoop_length type buffer offset :
  N.of_nat (length (chunkLoop type buffer offset []))
  = ((byteLength buffer - offset + MAX_CHUNK_SIZE - 1) / MAX_CHUNK_SIZE)%N.
Proof.
  induction offset as [offset IH] using (chunk_offset_ind buffer).
  pose proof MAX_CHUNK_SIZE_pos as Hpos.
  destruct (N.ltb_spec offset (byteLength buffer)) as [Hlt|Hge].
  - rewrite (chunkLoop_cons type buffer Hlt). cbn [length].
    rewrite Nat2N.inj_succ, (IH Hlt).
    rewrite (ceiling_step (n := byteLength buffer - offset)) by lia.
    replace (byteLength buffer
             - (offset + N.min MAX_CHUNK_SIZE (byteLength buffer - offset)))%N
      with (byteLength buffer - offset
            - N.min MAX_CHUNK_SIZE (byteLength buffer - offset))%N by lia.
    lia.
  - rewrite (chunkLoop_nil type buffer Hge). cbn [length].
    replace (byteLength buffer - offset)%N with 0%N by lia.
    symmetry. apply N.div_small. lia.
Qed.

Lemma chunkLoop_types type buffer :
  Forall (fun c => blob_type c = type) (chunkLoop type buffer 0 []).
Proof.
  eapply Forall_impl; [|apply (chunkLoop_sizes type buffer (N.le_0_l _))].
  cbv beta. now intros c [_ H].
Qed.

Lemma byteLength_concat (chunks : list Blob) :
  byteLength (concat (map blob_bytes chunks))
  = fold_right N.add 0%N (map blob_size chunks).
Proof.
  unfold byteLength, blob_size.
  induction chunks as [|c chunks IH]; simpl; [reflexivity|].
  rewrite length_app, Nat2N.inj_add. unfold byteLength in IH. now rewrite IH.
Qed.

(** X1. A payload of more than 25 MiB (and at most 500 MiB) is cut into
    [ceil (size / 20 MiB)] chunks. *)
Theorem chunk_count_is_ceiling file :
  (GROQ_SIZE_LIMIT < file_size file <= MAX_FILE_SIZE)%N ->
  exists processed,
    processAudioFile file = inr processed
    /\ N.of_nat (length (chunks processed))
       = ((file_size file + MAX_CHUNK_SIZE - 1) / MAX_CHUNK_SIZE)%N.
Proof.
  intros Hsize. eexists. split; [apply (processAudioFile_large _ Hsize)|].
  cbn [chunks]. rewrite chunkLoop_length. unfold file_size.
  now rewrite N.sub_0_r.
Qed.

Lemma chunk_count_is_ceiling_witness :
  (GROQ_SIZE_LIMIT < file_size (zero_file (45 * 1024 * 1024))
   <= MAX_FILE_SIZE)%N
  /\ exists processed,
       processAudioFile (zero_file (45 * 1024 * 1024)) = inr processed
       /\ N.of_nat (length (chunks processed))
          = ((file_size (zero_file (45 * 1024 * 1024)) + MAX_CHUNK_SIZE - 1)
             / MAX_CHUNK_SIZE)%N.
Proof.
  assert (H : (GROQ_SIZE_LIMIT < file_size (zero_file (45 * 1024 * 1024))
               <= MAX_FILE_SIZE)%N).
  { rewrite file_size_zero_file.
    split; [reflexivity | apply N.leb_le; reflexivity]. }
  split; [exact H | exact (chunk_count_is_ceiling _ H)].
Defined.

(** How many chunks an accepted payload gives. *)
Lemma chunk_count_facts file :
  (file_size file <= MAX_FILE_SIZE)%N ->
  exists processed,
    processAudioFile file = inr processed
    /\ 1 <= length (chunks processed) <= 25
    /\ (length (chunks processed) = 1
        <-> (file_size file <= GROQ_SIZE_LIMIT)%N).
Proof.
  intros Hmax. pose proof size_limits as [Hsoft Hhard].
  destruct (N.le_gt_cases (file_size file) GROQ_SIZE_LIMIT) as [Hle|Hgt].
  - eexists. split; [apply (processAudioFile_small _ Hle)|]. cbn.
    split; [lia|]. split; trivial.
  - eexists. split; [apply (processAudioFile_large _ (conj Hgt Hmax))|].
    cbn [chunks].
    pose proof (chunkLoop_length (file_type file) (file_bytes file) 0) as Hlen.
    rewrite N.sub_0_r in Hlen. fold (file_size file) in Hlen.
    assert (Hlo : (2 <= (file_size file + MAX_CHUNK_SIZE - 1) / MAX_CHUNK_SIZE)%N).
    { apply N.div_le_lower_bound; [discriminate|].
      unfold MAX_CHUNK_SIZE, GROQ_SIZE_LIMIT in *. lia. }
    assert (Hhi : ((file_size file + MAX_CHUNK_SIZE - 1) / MAX_CHUNK_SIZE <= 25)%N).
    { apply N.lt_succ_r. apply N.Div0.div_lt_upper_bound.
      unfold MAX_CHUNK_SIZE, MAX_FILE_SIZE in *. lia. }
    split; [lia|]. split; lia.
Qed.

(** X2. An accepted payload (at most 500 MiB) gives at least one chunk and
    at most 25, and exactly one when it is no larger than 25 MiB; the empty
    payload too is one chunk. *)
Theorem chunk_count_is_bounded file :
  (file_size file <= MAX_FILE_SIZE)%N ->
  exists processed,
    processAudioFile file = inr processed
    /\ 1 <= length (chunks processed) <= 25
    /\ (length (chunks processed) = 1
        <-> (file_size file <= GROQ_SIZE_LIMIT)%N)
    /\ (file_bytes file = [] -> chunks processed = [blob_of_file file]).
Proof.
  intros Hmax.
  destruct (chunk_count_facts _ Hmax) as (processed & Hp & Hbounds & Hone).
  exists processed. repeat split; try tauto; try lia.
  intros Hempty.
  assert (Hsmall : (file_size file <= GROQ_SIZE_LIMIT)%N).
  { unfold file_size, byteLength. rewrite Hempty. apply N.le_0_l. }
  rewrite (processAudioFile_small _ Hsmall) in Hp. now injection Hp as <-.
Qed.

Lemma chunk_count_is_bounded_witness :
  (file_size (zero_file (45 * 1024 * 1024)) <= MAX_FILE_SIZE)%N
  /\ exists processed,
       processAudioFile (zero_file (45 * 1024 * 1024)) = inr processed
       /\ 1 <= length (chunks processed) <= 25
       /\ (length (chunks processed) = 1
           <-> (file_size (zero_file (45 * 1024 * 1024)) <= GROQ_SIZE_LIMIT)%N)
       /\ (file_bytes (zero_file (45 * 1024 * 1024)) = []
           -> chunks processed = [blob_of_file (zero_file (45 * 1024 * 1024))]).
Proof.
  assert (H : (file_size (zero_file (45 * 1024 * 1024)) <= MAX_FILE_SIZE)%N).
  { rewrite file_size_zero_file. apply N.leb_le. reflexivity. }
  split; [exact H | exact (chunk_count_is_bounded _ H)].
Defined.

(** The name, type and size the chunker reports are the file's. *)
Lemma processAudioFile_fields file processed :
  processAudioFile file = inr processed ->
  fileName processed = file_name file
  /\ fileType processed = file_type file
  /\ totalSize processed = file_size file.
Proof.
  unfold processAudioFile. intros H.
  destruct (MAX_FILE_SIZE <? file_size file)%N; [discriminate|].
  destruct (file_size file <=? GROQ_SIZE_LIMIT)%N;
    injection H as <-; repeat split.
Qed.

(** X3. The chunker reports the file's own name, type and size; every chunk
    has the type of the file; the sizes of the chunks add up to the size of
    the file; and no chunk of a non-empty file is empty. *)
Theorem chunks_inherit_the_file file :
  (file_size file <= MAX_FILE_SIZE)%N ->
  exists processed,
    processAudioFile file = inr processed
    /\ fileName processed = file_name file
    /\ fileType processed = file_type file
    /\ totalSize processed = file_size file
    /\ Forall (fun c => blob_type c = file_type file) (chunks processed)
    /\ fold_right N.add 0%N (map blob_size (chunks processed)) = file_size file
    /\ ((0 < file_size file)%N ->
        Forall (fun c => (0 < blob_size c)%N) (chunks processed)).
Proof.
  intros Hmax.
  destruct (N.le_gt_cases (file_size file) GROQ_SIZE_LIMIT) as [Hle|Hgt].
  - eexists. split; [apply (processAudioFile_small _ Hle)|]. cbn.
    repeat split.
    + repeat constructor.
    + apply N.add_0_r.
    + intros Hpos. repeat constructor. exact Hpos.
  - eexists. split; [apply (processAudioFile_large _ (conj Hgt Hmax))|].
    cbn [chunks fileName fileType totalSize]. repeat split.
    + apply chunkLoop_types.
    + rewrite <- byteLength_concat.
      now rewrite (chunkLoop_concat (file_type file) (file_bytes file) 0).
    + intros _. eapply Forall_impl;
        [|apply (chunkLoop_sizes (file_type file) (file_bytes file)
                   (N.le_0_l _))].
      cbv beta. now intros c [[H _] _].
Qed.

Lemma chunks_inherit_the_file_witness :
  (file_size (zero_file (45 * 1024 * 1024)) <= MAX_FILE_SIZE)%N
  /\ exists processed,
    processAudioFile (zero_file (45 * 1024 * 1024)) = inr processed
    /\ fileName processed = file_name (zero_file (45 * 1024 * 1024))
    /\ fileType processed = file_type (zero_file (45 * 1024 * 1024))
    /\ totalSize processed = file_size (zero_file (45 * 1024 * 1024))
    /\ Forall (fun c => blob_type c = file_type (zero_file (45 * 1024 * 1024)))
         (chunks processed)
    /\ fold_right N.add 0%N (map blob_size (chunks processed))
       = file_size (zero_file (45 * 1024 * 1024))
    /\ ((0 < file_size (zero_file (45 * 1024 * 1024)))%N ->
        Forall (fun c => (0 < blob_size c)%N) (chunks processed)).
Proof.
  assert (H : (file_size (zero_file (45 * 1024 * 1024)) <= MAX_FILE_SIZE)%N).
  { rewrite file_size_zero_file. apply N.leb_le. reflexivity. }
  split; [exact H | exact (chunks_inherit_the_file _ H)].
Defined.

(* ===================================================================== *)
(** * More on the merger: the text, the offsets *)
(* ===================================================================== *)

(** The text the loop builds: the texts of the chunks with one space
    between two of them. *)
Lemma combineLoop_text l : forall st index,
  combinedText (combineLoop st index l)
  = combinedText st
      ++ match l with
         | [] => []
         | _ :: _ =>
             (if (0 <? index)%nat then lit " " else [])
               ++ join (lit " ") (map r_text l)
         end.
Proof.
  induction l as [|t l IH]; intros st index.
  - simpl. now rewrite app_nil_r.
  - cbn [combineLoop]. rewrite IH. cbn [combineStep combinedText].
    destruct l as [|t' l].
    + simpl. rewrite app_nil_r.
      destruct index; [reflexivity | symmetry; apply app_assoc].
    + cbn [Nat.ltb Nat.leb map join].
      destruct index; cbn [Nat.ltb Nat.leb app].
      * rewrite <- app_assoc. reflexivity.
      * rewrite <- !app_assoc. reflexivity.
Qed.

Lemma trimStart_head s : forall c rest,
  trimStart s = c :: rest -> is_white_space c = false.
Proof.
  induction s as [|a s IH]; intros c rest; simpl; [discriminate|].
  destruct (is_white_space a) eqn:E; [apply IH|].
  intros [= <- _]. exact E.
Qed.

Lemma trimStart_keeps_last a : forall c,
  is_white_space c = false ->
  exists kept, trimStart (a ++ [c]) = kept ++ [c].
Proof.
  intros c Hc. induction a as [|y a IH]; simpl.
  - rewrite Hc. now exists [].
  - destruct (is_white_space y); [exact IH|]. now exists (y :: a).
Qed.

Lemma trimEnd_last s front c :
  trimEnd s = front ++ [c] -> is_white_space c = false.
Proof.
  unfold trimEnd. intros H. apply (f_equal (@rev _)) in H.
  rewrite rev_involutive, rev_app_distr in H. simpl in H.
  now apply trimStart_head in H.
Qed.

Lemma trimEnd_keeps_head c rest :
  is_white_space c = false ->
  exists kept, trimEnd (c :: rest) = c :: kept.
Proof.
  intros Hc. unfold trimEnd. simpl.
  destruct (@trimStart_keeps_last (rev rest) c Hc) as [kept ->].
  rewrite rev_app_distr. simpl. now exists (rev kept).
Qed.

(** What [trim] returns has no white space at either end, and trimming it
    again changes nothing. *)
Lemma trim_is_trimmed s :
  (forall c rest, trim s = c :: rest -> is_white_space c = false)
  /\ (forall front c, trim s = front ++ [c] -> is_white_space c = false)
  /\ trim (trim s) = trim s.
Proof.
  assert (Hhead : forall c rest, trim s = c :: rest -> is_white_space c = false).
  { unfold trim. destruct (trimStart s) as [|a u] eqn:E.
    - discriminate.
    - pose proof (@trimStart_head s a u E) as Ha.
      destruct (@trimEnd_keeps_head a u Ha) as [kept ->].
      now intros c rest [= <- _]. }
  assert (Hlast : forall front c, trim s = front ++ [c] ->
                                  is_white_space c = false).
  { unfold trim. intros front c. apply (@trimEnd_last (trimStart s) front c). }
  split; [exact Hhead|]. split; [exact Hlast|].
  destruct (trim s) as [|a v] eqn:E; [reflexivity|].
  pose proof (Hhead a v eq_refl) as Ha.
  destruct (@exists_last _ (a :: v)) as (front & b & Hv); [discriminate|].
  pose proof (Hlast front b Hv) as Hb.
  destruct front as [|a' front]; simpl in Hv.
  - injection Hv as -> ->.
    unfold trim, trimEnd. rewrite trimStart_keeps by exact Hb.
    cbn [rev app]. now rewrite trimStart_keeps by exact Hb.
  - injection Hv as <- ->. now apply trim_keeps.
Qed.

Lemma combineTranscriptions_long (l : list TranscriptionResponse) :
  2 <= length l ->
  exists t1 t2 rest, l = t1 :: t2 :: rest.
Proof.
  destruct l as [|t1 [|t2 rest]]; simpl; try lia. intros _. now eauto.
Qed.

(** X4. For two transcripts or more, the combined text is the texts of the
    chunks joined by single spaces, with the white space at both ends of the
    whole removed, and the language is that of the first transcript. *)
Theorem combined_text_is_joined t1 t2 l :
  exists r,
    combineTranscriptions (t1 :: t2 :: l) = inr r
    /\ r_text r = trim (join (lit " ") (map r_text (t1 :: t2 :: l)))
    /\ language r = language t1.
Proof.
  eexists. split; [apply combineTranscriptions_many|].
  cbn [r_text language]. split; [|reflexivity].
  rewrite combineLoop_text. reflexivity.
Qed.

(** X5. For two transcripts or more, the combined text neither begins nor
    ends with white space, whatever the texts of the chunks; a single
    transcript keeps its text as it is, white space included. *)
Theorem combined_text_is_trimmed t1 t2 l :
  (exists r,
     combineTranscriptions (t1 :: t2 :: l) = inr r
     /\ (forall c rest, r_text r = c :: rest -> is_white_space c = false)
     /\ (forall front c, r_text r = front ++ [c] -> is_white_space c = false)
     /\ trim (r_text r) = r_text r)
  /\ combineTranscriptions [t1] = inr t1.
Proof.
  split; [|reflexivity].
  eexists. split; [apply combineTranscriptions_many|].
  cbn [r_text]. apply trim_is_trimmed.
Qed.

Lemma rebased_length l : forall offset,
  length (rebased offset l) = length (concat (map segments l)).
Proof.
  intros offset. eapply Forall2_length. apply rebased_frame.
Qed.

Lemma rebased_silent silent : forall offset l,
  Forall (fun c => segments c = []) silent ->
  rebased offset (silent ++ l) = rebased offset l.
Proof.
  induction silent as [|c silent IH]; intros offset l H; [reflexivity|].
  inversion H as [|? ? Hc Hrest]; subst. simpl.
  unfold next_offset. rewrite Hc. simpl. now apply IH.
Qed.

(** X6. The offset of a chunk is the end of the last segment of the nearest
    chunk before it that has segments, as that chunk reported it: offsets do
    not add up along the list.  The segments of [u] appear in the result
    moved by [end_ s], whatever comes before [t]. *)
Theorem offsets_do_not_accumulate pre t front s silent u post :
  segments t = front ++ [s] ->
  Forall (fun c => segments c = []) silent ->
  exists r,
    combineTranscriptions (pre ++ t :: silent ++ u :: post) = inr r
    /\ firstn (length (segments u))
         (skipn (length (concat (map segments (pre ++ [t])))) (segments r))
       = map (adjustSegment (end_ s)) (segments u).
Proof.
  intros Ht Hsilent.
  destruct (@combineTranscriptions_long (pre ++ t :: silent ++ u :: post))
    as (t1 & t2 & rest & E).
  { rewrite !length_app. simpl. rewrite length_app. simpl. lia. }
  rewrite E. eexists. split; [apply combineTranscriptions_many|].
  cbn [segments]. rewrite <- E.
  replace (pre ++ t :: silent ++ u :: post)
    with ((pre ++ [t]) ++ silent ++ u :: post)
    by (now rewrite <- app_assoc).
  rewrite rebased_app, <- (rebased_length (pre ++ [t]) zero).
  rewrite skipn_app, skipn_all, Nat.sub_diag. cbn [app skipn].
  rewrite rebased_silent by exact Hsilent. cbn [rebased].
  assert (Hoffset : fold_left next_offset (pre ++ [t]) zero = end_ s).
  { rewrite fold_left_app. simpl. unfold next_offset.
    now rewrite Ht, rev_app_distr. }
  rewrite Hoffset.
  rewrite firstn_app, length_map, Nat.sub_diag. cbn [firstn].
  rewrite app_nil_r. rewrite <- (length_map (adjustSegment (end_ s))).
  apply firstn_all.
Qed.

Lemma offsets_do_not_accumulate_witness :
  segments sample_a = [sample_segment 0 0 4 "a"] ++ [sample_segment 1 4 10 "b"]
  /\ Forall (fun c => segments c = []) [sample_silent]
  /\ exists r,
       combineTranscriptions
         ([sample_a] ++ sample_a :: [sample_silent] ++ sample_b :: []) = inr r
       /\ map start (segments r)
          = [of_Z 0; of_Z 4; of_Z 10; of_Z 14; of_Z 10]
       /\ map end_ (segments r)
          = [of_Z 4; of_Z 10; of_Z 14; of_Z 20; of_Z 12].
Proof.
  assert (H1 : segments sample_a
               = [sample_segment 0 0 4 "a"] ++ [sample_segment 1 4 10 "b"])
    by reflexivity.
  assert (H2 : Forall (fun c => segments c = []) [sample_silent])
    by (repeat constructor).
  repeat (split; [assumption|]).
  destruct (@offsets_do_not_accumulate [sample_a] sample_a _ _
              [sample_silent] sample_b [] H1 H2) as (r & Hr & _).
  exists r. split; [exact Hr|].
  assert (Hc : combineTranscriptions
                 ([sample_a] ++ sample_a :: [sample_silent] ++ sample_b :: [])
               = inr {| r_text := lit "a b a b  c";
                        segments := rebased zero
                          [sample_a; sample_a; sample_silent; sample_b];
                        language := lit "en" |})
    by reflexivity.
  rewrite Hc in Hr. injection Hr as <-. split; reflexivity.
Defined.

(* ===================================================================== *)
(** * More on the submission handler *)
(* ===================================================================== *)


Lemma groq_calls_length fileName remaining : forall k,
  length (groq_calls fileName k remaining) = length remaining.
Proof. induction remaining; intros k; simpl; auto. Qed.

Lemma groq_calls_all_groq fileName remaining : forall k,
  forallb is_groq (groq_calls fileName k remaining) = true.
Proof. induction remaining; intros k; simpl; auto. Qed.

Lemma processAudioFile_accepts file processed :
  processAudioFile file = inr processed ->
  (file_size file <= MAX_FILE_SIZE)%N.
Proof.
  unfold processAudioFile.
  destruct (N.ltb_spec MAX_FILE_SIZE (file_size file)); [discriminate|].
  trivial.
Qed.

Section LoopExtras.

Variable groq_create : File -> GroqOutcome.

Lemma failures_from_lines fileName remaining : forall k,
  Forall
    (fun line =>
       exists i chunk message,
         nth_error remaining i = Some chunk
         /\ line = lit "Failed to transcribe segment "
                     ++ string_of_index (k + i + 1) ++ lit ": " ++ message
         /\ (groq_create (blobToFile chunk (chunkName (k + i) fileName))
             = GroqThrowsError message
             \/ (groq_create (blobToFile chunk (chunkName (k + i) fileName))
                 = GroqThrowsOther
                 /\ message = lit "Unknown transcription error")))
    (failures_from groq_create fileName k remaining).
Proof.
  induction remaining as [|chunk remaining IH]; intros k; simpl.
  - constructor.
  - assert (Hrest : Forall
      (fun line =>
         exists i chunk0 message,
           nth_error (chunk :: remaining) i = Some chunk0
           /\ line = lit "Failed to transcribe segment "
                       ++ string_of_index (k + i + 1) ++ lit ": " ++ message
           /\ (groq_create (blobToFile chunk0 (chunkName (k + i) fileName))
               = GroqThrowsError message
               \/ (groq_create (blobToFile chunk0 (chunkName (k + i) fileName))
                   = GroqThrowsOther
                   /\ message = lit "Unknown transcription error")))
      (failures_from groq_create fileName (S k) remaining)).
    { eapply Forall_impl; [|apply (IH (S k))]. cbv beta.
      intros line (i & c & m & Hn & Hl & Hg). exists (S i), c, m.
      replace (k + S i) with (S k + i) by lia. now repeat split. }
    unfold outcome_of, transcribeAudio. cbn [snd].
    destruct (groq_create (blobToFile chunk (chunkName k fileName))) eqn:E;
      trivial; constructor; trivial.
    + exists 0, chunk, message. rewrite !Nat.add_0_r.
      split; [reflexivity|]. split; [reflexivity|]. now left.
    + exists 0, chunk, (lit "Unknown transcription error").
      rewrite !Nat.add_0_r.
      split; [reflexivity|]. split; [reflexivity|]. now right.
Qed.


(** X8. Every line of the loop's error array reads
    ["Failed to transcribe segment <i+1>: <message>"] for a chunk [i] on
    which the provider threw; the message is the one of the provider's
    [Error], or ['Unknown transcription error'] when what it threw is not an
    [Error].  The fallback ['Unknown error'] of the loop's own [catch] is
    never used. *)
Theorem error_lines_name_the_chunk fileName chunks :
  exists transcriptionResults errors,
    snd (transcribeChunks groq_create fileName chunks 0 [] [])
    = inr (transcriptionResults, errors)
    /\ Forall
         (fun line =>
            exists i chunk message,
              nth_error chunks i = Some chunk
              /\ line = lit "Failed to transcribe segment "
                          ++ string_of_index (i + 1) ++ lit ": " ++ message
              /\ (groq_create (blobToFile chunk (chunkName i fileName))
                  = GroqThrowsError message
                  \/ (groq_create (blobToFile chunk (chunkName i fileName))
                      = GroqThrowsOther
                      /\ message = lit "Unknown transcription error")))
         errors.
Proof.
  rewrite transcribeChunks_run. cbn [snd app].
  eexists. eexists. split; [reflexivity|].
  apply (failures_from_lines fileName chunks 0).
Qed.

End LoopExtras.

Section HandlerExtras.

Variable Row : Type.
Variable getUserWithTeam : Z -> result (option UserWithTeam).
Variable groq_create : File -> GroqOutcome.
Variable saveTranscription : TranscriptionData -> result Row.
Variable toFixed3 : number -> number.

Local Abbreviation handler :=
  (processTranscription getUserWithTeam groq_create saveTranscription toFixed3).

(** A response that carries an error and nothing else. *)
Local Abbreviation error_only message :=
  {| error := Some message; success := None; transcription := @None Row |}.

Local Abbreviation generic_message :=
  (lit "Failed to process transcription. Please try again.").

Lemma handler_run_lookup_throws file userId e :
  getUserWithTeam userId = inl e ->
  handler file userId
  = ([CallGetUserWithTeam userId],
     inr (error_only (message_or generic_message e))).
Proof.
  intros Huser. unfold processTranscription. rewrite Huser. reflexivity.
Qed.

Lemma handler_run_no_team file userId userWithTeam :
  getUserWithTeam userId = inr userWithTeam ->
  team_of userWithTeam = None ->
  handler file userId
  = ([CallGetUserWithTeam userId],
     inr (error_only (lit "User is not part of a team"))).
Proof.
  intros Huser Hteam. unfold processTranscription. rewrite Huser.
  cbn [bind try_catch]. rewrite Hteam. reflexivity.
Qed.

Lemma handler_run_rejected file userId userWithTeam team e :
  getUserWithTeam userId = inr userWithTeam ->
  team_of userWithTeam = Some team ->
  processAudioFile file = inl e ->
  handler file userId
  = ([CallGetUserWithTeam userId],
     inr (error_only (message_or generic_message e))).
Proof.
  intros Huser Hteam Hfile. unfold processTranscription. rewrite Huser.
  cbn [bind try_catch]. rewrite Hteam, Hfile. reflexivity.
Qed.

(** The five ways a submission can go: the lookup of the user throws; the
    user has no team; the chunker rejects the file; no chunk is transcribed;
    or some chunk is, and one record goes to the store. *)
Lemma handler_cases file userId :
  (exists e,
     getUserWithTeam userId = inl e
     /\ handler file userId
        = ([CallGetUserWithTeam userId],
           inr (error_only (message_or generic_message e))))
  \/ (exists userWithTeam,
        getUserWithTeam userId = inr userWithTeam
        /\ team_of userWithTeam = None
        /\ handler file userId
           = ([CallGetUserWithTeam userId],
              inr (error_only (lit "User is not part of a team"))))
  \/ (exists userWithTeam team e,
        getUserWithTeam userId = inr userWithTeam
        /\ team_of userWithTeam = Some team
        /\ processAudioFile file = inl e
        /\ handler file userId
           = ([CallGetUserWithTeam userId],
              inr (error_only (message_or generic_message e))))
  \/ (exists userWithTeam team processed,
        getUserWithTeam userId = inr userWithTeam
        /\ team_of userWithTeam = Some team
        /\ processAudioFile file = inr processed
        /\ successes_from groq_create (fileName processed) 0 (chunks processed)
           = []
        /\ handler file userId
           = (CallGetUserWithTeam userId
                :: groq_calls (fileName processed) 0 (chunks processed),
              inr (error_only
                     (lit "Failed to transcribe any part of the audio file"))))
  \/ (exists userWithTeam team processed combined data,
        getUserWithTeam userId = inr userWithTeam
        /\ team_of userWithTeam = Some team
        /\ processAudioFile file = inr processed
        /\ successes_from groq_create (fileName processed) 0 (chunks processed)
           <> []
        /\ combineTranscriptions
             (successes_from groq_create (fileName processed) 0
                (chunks processed))
           = inr combined
        /\ data = transcriptionData toFixed3 team userId processed combined
                    (failures_from groq_create (fileName processed) 0
                       (chunks processed))
        /\ handler file userId
           = (CallGetUserWithTeam userId
                :: groq_calls (fileName processed) 0 (chunks processed)
                ++ [CallSaveTranscription data],
              match saveTranscription data with
              | inr saved =>
                  inr {| success :=
                           Some (if (0 <? length
                                            (failures_from groq_create
                                               (fileName processed) 0
                                               (chunks processed)))%nat
                                 then lit "Transcription completed with some errors"
                                 else lit "Transcription completed successfully");
                         transcription := Some saved;
                         error := d_errorLog data |}
              | inl e => inr (error_only (message_or generic_message e))
              end)).
Proof.
  destruct (getUserWithTeam userId) as [e|userWithTeam] eqn:Huser.
  { left. exists e. split; [reflexivity|].
    eapply handler_run_lookup_throws; eassumption. }
  destruct (team_of userWithTeam) as [team|] eqn:Hteam.
  2: { right; left. exists userWithTeam. split; [reflexivity|].
       split; [exact Hteam|]. eapply handler_run_no_team; eassumption. }
  destruct (processAudioFile file) as [e|processed] eqn:Hfile.
  { right; right; left. exists userWithTeam, team, e.
    repeat (split; [trivial|]). eapply handler_run_rejected; eassumption. }
  destruct (successes_from groq_create (fileName processed) 0 (chunks processed))
    as [|t1 rest] eqn:Hsome.
  { right; right; right; left. exists userWithTeam, team, processed.
    repeat (split; [trivial|]).
    eapply handler_run_nothing; eassumption. }
  destruct (@combineTranscriptions_total (t1 :: rest)) as [combined Hcombined];
    [discriminate|].
  right; right; right; right.
  exists userWithTeam, team, processed, combined. eexists.
  rewrite <- Hsome in Hcombined.
  split; [reflexivity|]. split; [exact Hteam|]. split; [reflexivity|].
  split; [rewrite Hsome; discriminate|]. split; [exact Hcombined|].
  split; [reflexivity|].
  erewrite handler_run_some by eassumption.
  reflexivity.
Qed.

Lemma successes_nonempty fileName remaining : forall k,
  successes_from groq_create fileName k remaining <> []
  <-> exists i chunk t,
        nth_error remaining i = Some chunk
        /\ outcome_of groq_create fileName (k + i) chunk = inr t.
Proof.
  induction remaining as [|chunk remaining IH]; intros k; simpl.
  - split; [congruence|]. intros ([|i] & c & t & H & _); discriminate.
  - destruct (outcome_of groq_create fileName k chunk) as [e|t] eqn:E.
    + rewrite IH. split.
      * intros (i & c & t & Hn & Ho). exists (S i), c, t.
        now replace (k + S i) with (S k + i) by lia.
      * intros ([|i] & c & t & Hn & Ho); simpl in Hn.
        -- injection Hn as <-. rewrite Nat.add_0_r in Ho. congruence.
        -- exists i, c, t. now replace (S k + i) with (k + S i) by lia.
    + split; [|discriminate]. intros _. exists 0, chunk, t.
      now rewrite Nat.add_0_r.
Qed.

Lemma failures_nonempty fileName remaining : forall k,
  failures_from groq_create fileName k remaining <> []
  <-> exists i chunk e,
        nth_error remaining i = Some chunk
        /\ outcome_of groq_create fileName (k + i) chunk = inl e.
Proof.
  induction remaining as [|chunk remaining IH]; intros k; simpl.
  - split; [congruence|]. intros ([|i] & c & t & H & _); discriminate.
  - destruct (outcome_of groq_create fileName k chunk) as [e|t] eqn:E.
    + split; [|discriminate]. intros _. exists 0, chunk, e.
      now rewrite Nat.add_0_r.
    + rewrite IH. split.
      * intros (i & c & e & Hn & Ho). exists (S i), c, e.
        now replace (k + S i) with (S k + i) by lia.
      * intros ([|i] & c & e & Hn & Ho); simpl in Hn.
        -- injection Hn as <-. rewrite Nat.add_0_r in Ho. congruence.
        -- exists i, c, e. now replace (S k + i) with (k + S i) by lia.
Qed.

Lemma groq_calls_not_save fileName remaining k data :
  ~ In (CallSaveTranscription data) (groq_calls fileName k remaining).
Proof.
  revert k. induction remaining as [|chunk remaining IH]; intros k; simpl.
  - tauto.
  - intros [H|H]; [discriminate | now apply (IH (S k))].
Qed.

(** A record reaches the store only on the last of the five ways. *)
Lemma saved_case file userId data :
  In (CallSaveTranscription data) (fst (handler file userId)) ->
  exists userWithTeam team processed combined,
    getUserWithTeam userId = inr userWithTeam
    /\ team_of userWithTeam = Some team
    /\ processAudioFile file = inr processed
    /\ combineTranscriptions
         (successes_from groq_create (fileName processed) 0 (chunks processed))
       = inr combined
    /\ data = transcriptionData toFixed3 team userId processed combined
                (failures_from groq_create (fileName processed) 0
                   (chunks processed))
    /\ fst (handler file userId)
       = CallGetUserWithTeam userId
           :: groq_calls (fileName processed) 0 (chunks processed)
           ++ [CallSaveTranscription data]
    /\ snd (handler file userId)
       = match saveTranscription data with
         | inr saved =>
             inr {| success :=
                      Some (if (0 <? length
                                       (failures_from groq_create
                                          (fileName processed) 0
                                          (chunks processed)))%nat
                            then lit "Transcription completed with some errors"
                            else lit "Transcription completed successfully");
                    transcription := Some saved;
                    error := d_errorLog data |}
         | inl e => inr (error_only (message_or generic_message e))
         end.
Proof.
  intros Hin.
  destruct (handler_cases file userId)
    as [(e & _ & Hrun)
       |[(u & _ & _ & Hrun)
        |[(u & team & e & _ & _ & _ & Hrun)
         |[(u & team & processed & _ & _ & _ & _ & Hrun)
          |(u & team & processed & combined & data0
            & Huser & Hteam & Hfile & _ & Hcombined & Hdata & Hrun)]]]];
    rewrite Hrun in Hin; cbn [fst] in Hin.
  - destruct Hin as [H|[]]; discriminate.
  - destruct Hin as [H|[]]; discriminate.
  - destruct Hin as [H|[]]; discriminate.
  - destruct Hin as [H|H]; [discriminate|].
    now apply groq_calls_not_save in H.
  - destruct Hin as [H|H]; [discriminate|].
    apply in_app_or in H. destruct H as [H|[H|[]]].
    + now apply groq_calls_not_save in H.
    + injection H as <-. exists u, team, processed, combined.
      rewrite Hrun. now repeat split.
Qed.

(** X9. The handler never throws: every submission ends in a response.
    The response carries a success message exactly when it carries the saved
    record, and a record only after a call to the store; a response without
    a success message carries an error. *)
Theorem submission_always_answers file userId :
  exists response,
    snd (handler file userId) = inr response
    /\ (success response = None <-> transcription response = None)
    /\ (success response = None -> error response <> None)
    /\ (transcription response <> None ->
        existsb is_save (fst (handler file userId)) = true).
Proof.
  destruct (handler_cases file userId)
    as [(e & _ & Hrun)
       |[(u & _ & _ & Hrun)
        |[(u & team & e & _ & _ & _ & Hrun)
         |[(u & team & processed & _ & _ & _ & _ & Hrun)
          |(u & team & processed & combined & data
            & _ & _ & _ & _ & _ & _ & Hrun)]]]];
    rewrite Hrun; cbn [fst snd].
  1-4: eexists; split; [reflexivity|]; cbn;
       repeat split; try discriminate; try tauto; intros H; now contradiction H.
  destruct (saveTranscription data) as [e|saved].
  - eexists; split; [reflexivity|]; cbn;
      repeat split; try discriminate; try tauto; intros H; now contradiction H.
  - eexists; split; [reflexivity|]. cbn [success transcription error].
    repeat split; try discriminate. intros _.
    cbn [existsb is_save orb]. rewrite existsb_app. cbn.
    now rewrite orb_true_r.
Qed.

(** X10. The calls of a submission are, in order: one lookup of the user, at
    most 25 calls of the provider, and at most one call of the store, which
    comes last.  Once the user has a team and the chunker has accepted the
    file, the provider calls are one per chunk whatever their outcomes. *)
Theorem submission_calls_are_bounded file userId :
  exists provider saves,
    fst (handler file userId) = CallGetUserWithTeam userId :: provider ++ saves
    /\ forallb is_groq provider = true
    /\ length provider <= 25
    /\ (saves = [] \/ exists data, saves = [CallSaveTranscription data])
    /\ (forall userWithTeam team processed,
          getUserWithTeam userId = inr userWithTeam ->
          team_of userWithTeam = Some team ->
          processAudioFile file = inr processed ->
          provider = groq_calls (fileName processed) 0 (chunks processed)
          /\ length provider = length (chunks processed)).
Proof.
  assert (Hbound : forall processed,
            processAudioFile file = inr processed ->
            length (groq_calls (fileName processed) 0 (chunks processed)) <= 25).
  { intros processed Hp. rewrite groq_calls_length.
    destruct (chunk_count_facts _ (processAudioFile_accepts _ Hp))
      as (p & Hp' & Hb & _).
    rewrite Hp in Hp'. injection Hp' as <-. lia. }
  destruct (handler_cases file userId)
    as [(e & Huser & Hrun)
       |[(u & Huser & Hteam & Hrun)
        |[(u & team & e & Huser & Hteam & Hfile & Hrun)
         |[(u & team & processed & Huser & Hteam & Hfile & _ & Hrun)
          |(u & team & processed & combined & data
            & Huser & Hteam & Hfile & _ & _ & _ & Hrun)]]]];
    rewrite Hrun; cbn [fst].
  - exists [], []. split; [reflexivity|]. split; [reflexivity|].
    split; [simpl; lia|]. split; [now left|].
    intros u' team' p' Hu. congruence.
  - exists [], []. split; [reflexivity|]. split; [reflexivity|].
    split; [simpl; lia|]. split; [now left|].
    intros u' team' p' Hu Ht. congruence.
  - exists [], []. split; [reflexivity|]. split; [reflexivity|].
    split; [simpl; lia|]. split; [now left|].
    intros u' team' p' Hu Ht Hp. congruence.
  - exists (groq_calls (fileName processed) 0 (chunks processed)), [].
    rewrite app_nil_r. split; [reflexivity|].
    split; [apply groq_calls_all_groq|]. split; [now apply Hbound|].
    split; [now left|]. intros u' team' p' _ _ Hp.
    rewrite Hfile in Hp. injection Hp as <-.
    split; [reflexivity | apply groq_calls_length].
  - exists (groq_calls (fileName processed) 0 (chunks processed)),
           [CallSaveTranscription data].
    split; [reflexivity|].
    split; [apply groq_calls_all_groq|]. split; [now apply Hbound|].
    split; [right; now exists data|]. intros u' team' p' _ _ Hp.
    rewrite Hfile in Hp. injection Hp as <-.
    split; [reflexivity | apply groq_calls_length].
Qed.

(** X11. Once the user has a team and the chunker has accepted the file, a
    record is handed to the store exactly when the provider transcribed at
    least one chunk. *)
Theorem record_is_saved_iff_a_chunk_succeeds file userId userWithTeam team
    processed :
  getUserWithTeam userId = inr userWithTeam ->
  team_of userWithTeam = Some team ->
  processAudioFile file = inr processed ->
  (existsb is_save (fst (handler file userId)) = true
   <-> exists i chunk t,
         nth_error (chunks processed) i = Some chunk
         /\ outcome_of groq_create (fileName processed) i chunk = inr t).
Proof.
  intros Huser Hteam Hfile.
  rewrite <- (successes_nonempty (fileName processed) (chunks processed) 0).
  destruct (successes_from groq_create (fileName processed) 0
              (chunks processed)) as [|t1 rest] eqn:Hsome.
  - erewrite handler_run_nothing by eassumption. cbn [fst existsb is_save orb].
    rewrite groq_calls_no_save. split; [discriminate | congruence].
  - destruct (@combineTranscriptions_total (t1 :: rest)) as [combined Hc];
      [discriminate|].
    rewrite <- Hsome in Hc.
    erewrite handler_run_some by eassumption.
    cbn [fst existsb is_save orb]. rewrite existsb_app. cbn.
    rewrite orb_true_r. split; [discriminate | reflexivity].
Qed.

(** X12. A user without a team gets the answer ['User is not part of a
    team'] and nothing else happens: no call of the provider, none of the
    store.  A user counts as without a team when the lookup finds no row, or
    a row whose team id is [null] or 0. *)
Theorem user_without_a_team file userId userWithTeam :
  getUserWithTeam userId = inr userWithTeam ->
  (userWithTeam = None
   \/ exists row,
        userWithTeam = Some row
        /\ (teamId row = None \/ teamId row = Some 0%Z)) ->
  handler file userId
  = ([CallGetUserWithTeam userId],
     inr (error_only (lit "User is not part of a team"))).
Proof.
  intros Huser Hnone. eapply handler_run_no_team; [eassumption|].
  destruct Hnone as [->|(row & -> & [H|H])]; simpl; now rewrite ?H.
Qed.

(** X13. A file of more than 500 MiB that reaches the handler is answered
    with the chunker's message; the provider and the store are not called. *)
Theorem oversized_submission file userId userWithTeam team :
  getUserWithTeam userId = inr userWithTeam ->
  team_of userWithTeam = Some team ->
  (MAX_FILE_SIZE < file_size file)%N ->
  handler file userId
  = ([CallGetUserWithTeam userId],
     inr (error_only (lit "File size exceeds maximum limit of 500MB"))).
Proof.
  intros Huser Hteam Hsize.
  assert (Hfile : processAudioFile file
                  = inl (Error (lit "File size exceeds maximum limit of 500MB"))).
  { unfold processAudioFile. apply N.ltb_lt in Hsize. now rewrite Hsize. }
  erewrite handler_run_rejected by eassumption. reflexivity.
Qed.

Lemma all_succeed fileName remaining : forall k,
  (forall i chunk,
     nth_error remaining i = Some chunk ->
     exists t, outcome_of groq_create fileName (k + i) chunk = inr t) ->
  failures_from groq_create fileName k remaining = []
  /\ length (successes_from groq_create fileName k remaining)
     = length remaining.
Proof.
  induction remaining as [|chunk remaining IH]; intros k Hall; simpl.
  - split; reflexivity.
  - destruct (Hall 0 chunk eq_refl) as [t Ht].
    rewrite Nat.add_0_r in Ht. rewrite Ht. simpl.
    destruct (IH (S k)) as [Hf Hs].
    + intros i c Hi. replace (S k + i) with (k + S i) by lia.
      now apply Hall.
    + now rewrite Hf, Hs.
Qed.

(** When no chunk fails, the successes are the provider's answers, chunk by
    chunk. *)
Lemma all_succeed_nth fileName remaining : forall k,
  (forall i chunk,
     nth_error remaining i = Some chunk ->
     exists t, outcome_of groq_create fileName (k + i) chunk = inr t) ->
  forall i chunk,
    nth_error remaining i = Some chunk ->
    exists t,
      nth_error (successes_from groq_create fileName k remaining) i = Some t
      /\ outcome_of groq_create fileName (k + i) chunk = inr t.
Proof.
  induction remaining as [|c remaining IH]; intros k Hall i chunk Hi.
  - destruct i; discriminate Hi.
  - destruct (Hall 0 c eq_refl) as [t0 Ht0].
    rewrite Nat.add_0_r in Ht0. cbn [successes_from]. rewrite Ht0.
    destruct i as [|i].
    + injection Hi as <-. exists t0. rewrite Nat.add_0_r. now split.
    + replace (k + S i) with (S k + i) by lia. apply IH; [|exact Hi].
      intros j cj Hj. replace (S k + j) with (k + S j) by lia.
      now apply Hall.
Qed.

(** X14. When the provider transcribes every chunk, the loop collects the
    provider's answers, one per chunk and in chunk order, and no error line;
    they are all merged, the record handed to the store has the merged text,
    status ['complete'] and no error log, and, if the store accepts it, the
    answer carries the stored record, the message ['Transcription completed
    successfully'] and no error. *)
Theorem every_chunk_succeeds file userId userWithTeam team processed :
  getUserWithTeam userId = inr userWithTeam ->
  team_of userWithTeam = Some team ->
  processAudioFile file = inr processed ->
  (forall i chunk,
     nth_error (chunks processed) i = Some chunk ->
     exists t, outcome_of groq_create (fileName processed) i chunk = inr t) ->
  exists transcripts combined data,
    snd (transcribeChunks groq_create (fileName processed) (chunks processed)
           0 [] [])
    = inr (transcripts, [])
    /\ length transcripts = length (chunks processed)
    /\ (forall i chunk,
          nth_error (chunks processed) i = Some chunk ->
          exists t,
            nth_error transcripts i = Some t
            /\ outcome_of groq_create (fileName processed) i chunk = inr t)
    /\ combineTranscriptions transcripts = inr combined
    /\ fst (handler file userId)
       = CallGetUserWithTeam userId
           :: groq_calls (fileName processed) 0 (chunks processed)
           ++ [CallSaveTranscription data]
    /\ d_originalText data = r_text combined
    /\ d_status data = lit "complete"
    /\ d_errorLog data = None
    /\ forall saved,
         saveTranscription data = inr saved ->
         snd (handler file userId)
         = inr {| error := None;
                  success := Some (lit "Transcription completed successfully");
                  transcription := Some saved |}.
Proof.
  intros Huser Hteam Hfile Hall.
  destruct (all_succeed (fileName processed) (chunks processed) 0 Hall)
    as [Hfailures Hlength].
  destruct (@combineTranscriptions_total
              (successes_from groq_create (fileName processed) 0
                 (chunks processed))) as [combined Hcombined].
  { intros E. rewrite E in Hlength. simpl in Hlength.
    destruct (chunk_count_facts _ (processAudioFile_accepts _ Hfile))
      as (p & Hp & Hcount & _).
    rewrite Hfile in Hp. injection Hp as <-. lia. }
  exists (successes_from groq_create (fileName processed) 0 (chunks processed)),
         combined.
  eexists.
  split; [rewrite transcribeChunks_run, Hfailures; reflexivity|].
  split; [exact Hlength|].
  split; [exact (all_succeed_nth (fileName processed) (chunks processed) 0 Hall)|].
  split; [exact Hcombined|].
  erewrite handler_run_some by eassumption. rewrite Hfailures.
  cbn [fst snd]. split; [reflexivity|].
  split; [reflexivity|]. split; [reflexivity|]. split; [reflexivity|].
  intros saved Hsaved. rewrite Hsaved. reflexivity.
Qed.

(** X15. The status of a saved record tells whether a chunk failed: it is
    ['partial'] with the failure lines, joined by line feeds, as error log
    when some chunk failed, and ['complete'] with no error log when none
    did; there are as many failure lines and merged transcripts together as
    chunks. *)
Theorem status_tells_failures file userId data :
  In (CallSaveTranscription data) (fst (handler file userId)) ->
  exists processed transcripts failed,
    processAudioFile file = inr processed
    /\ snd (transcribeChunks groq_create (fileName processed)
              (chunks processed) 0 [] [])
       = inr (transcripts, failed)
    /\ length transcripts + length failed = length (chunks processed)
    /\ (failed = [] ->
        d_status data = lit "complete" /\ d_errorLog data = None)
    /\ (failed <> [] ->
        d_status data = lit "partial"
        /\ d_errorLog data = Some (join newline failed))
    /\ (failed <> []
        <-> exists i chunk e,
              nth_error (chunks processed) i = Some chunk
              /\ outcome_of groq_create (fileName processed) i chunk = inl e).
Proof.
  intros Hin.
  destruct (saved_case _ _ _ Hin)
    as (u & team & processed & combined & Huser & Hteam & Hfile & Hcombined
        & Hdata & _).
  exists processed. rewrite transcribeChunks_run. cbn [snd app].
  eexists. eexists. split; [exact Hfile|]. split; [reflexivity|].
  split; [apply successes_failures_length|].
  rewrite Hdata. cbn [transcriptionData d_status d_errorLog].
  split; [|split].
  - intros ->. split; reflexivity.
  - intros Hne.
    destruct (failures_from groq_create (fileName processed) 0
                (chunks processed)); [contradiction|].
    split; reflexivity.
  - apply (failures_nonempty (fileName processed) (chunks processed) 0).
Qed.

(** X16. When the store throws, the answer carries the store's message (or
    the general message, if what it threw is not an [Error]) and neither the
    transcript nor the lines of the chunks that failed. *)
Theorem store_failure_is_reported file userId data e :
  In (CallSaveTranscription data) (fst (handler file userId)) ->
  saveTranscription data = inl e ->
  snd (handler file userId)
  = inr (error_only (message_or generic_message e)).
Proof.
  intros Hin Hsave.
  destruct (saved_case _ _ _ Hin) as (u & team & processed & combined
                                      & _ & _ & _ & _ & _ & _ & Hrun).
  rewrite Hrun, Hsave. reflexivity.
Qed.

(** X17. A saved record describes the upload: the name, type and size of the
    file, the user and the team the lookup gave, the text and the language
    of the merged transcripts, and one segment for each merged segment, with
    every field but [start] and [end] as merged and those two passed through
    [toFixed(3)]. *)
Theorem saved_record_describes_the_upload file userId data :
  In (CallSaveTranscription data) (fst (handler file userId)) ->
  d_fileName data = file_name file
  /\ d_fileType data = file_type file
  /\ d_fileSize data = file_size file
  /\ d_userId data = userId
  /\ (exists userWithTeam,
        getUserWithTeam userId = inr userWithTeam
        /\ team_of userWithTeam = Some (d_teamId data))
  /\ exists processed combined,
       processAudioFile file = inr processed
       /\ combineTranscriptions
            (successes_from groq_create (fileName processed) 0
               (chunks processed))
          = inr combined
       /\ d_originalText data = r_text combined
       /\ d_language data = language combined
       /\ Forall2
            (fun saved merged =>
               same_frame saved merged
               /\ start saved = toFixed3 (start merged)
               /\ end_ saved = toFixed3 (end_ merged))
            (d_segments data) (segments combined).
Proof.
  intros Hin.
  destruct (saved_case _ _ _ Hin)
    as (u & team & processed & combined & Huser & Hteam & Hfile & Hcombined
        & Hdata & _).
  destruct (processAudioFile_fields _ Hfile) as (Hname & Htype & Hsize).
  rewrite Hdata. cbn [transcriptionData d_fileName d_fileType d_fileSize
                      d_userId d_teamId d_originalText d_language d_segments].
  repeat (split; [assumption || reflexivity|]).
  split; [exists u; now split|].
  exists processed, combined. repeat (split; [assumption || reflexivity|]).
  apply Forall2_flip, Forall2_map_r. intros s. now repeat split.
Qed.

End HandlerExtras.

Lemma record_is_saved_iff_a_chunk_succeeds_witness :
  sample_user 7 = inr (Some {| teamId := Some 1%Z |})
  /\ team_of (Some {| teamId := Some 1%Z |}) = Some 1%Z
  /\ processAudioFile (zero_file 3) = inr (one_chunk (zero_file 3))
  /\ existsb is_save
       (fst (processTranscription sample_user groq_up sample_save
               (fun x => x) (zero_file 3) 7)) = true
  /\ existsb is_save
       (fst (processTranscription sample_user groq_down sample_save
               (fun x => x) (zero_file 3) 7)) = false.
Proof.
  assert (H1 : sample_user 7 = inr (Some {| teamId := Some 1%Z |}))
    by reflexivity.
  assert (H2 : team_of (Some {| teamId := Some 1%Z |}) = Some 1%Z)
    by reflexivity.
  assert (H3 : processAudioFile (zero_file 3) = inr (one_chunk (zero_file 3)))
    by reflexivity.
  repeat (split; [assumption|]).
  split.
  - apply (@record_is_saved_iff_a_chunk_succeeds unit sample_user groq_up
             sample_save (fun x => x) (zero_file 3) 7 _ _ _ H1 H2 H3).
    exists 0, (blob_of_file (zero_file 3)), sample_a. split; reflexivity.
  - destruct (existsb is_save
                (fst (processTranscription sample_user groq_down sample_save
                        (fun x => x) (zero_file 3) 7))) eqn:E; [|reflexivity].
    apply (@record_is_saved_iff_a_chunk_succeeds unit sample_user groq_down
             sample_save (fun x => x) (zero_file 3) 7 _ _ _ H1 H2 H3) in E.
    destruct E as ([|[|i]] & chunk & t & Hn & Ho); try discriminate.
Defined.

Lemma user_without_a_team_witness :
  sample_user_team_0 7 = inr (Some {| teamId := Some 0%Z |})
  /\ (Some {| teamId := Some 0%Z |} = None
      \/ exists row,
           Some {| teamId := Some 0%Z |} = Some row
           /\ (teamId row = None \/ teamId row = Some 0%Z))
  /\ processTranscription sample_user_team_0 groq_up sample_save
       (fun x => x) (zero_file 3) 7
     = ([CallGetUserWithTeam 7],
        inr {| error := Some (lit "User is not part of a team");
               success := None;
               transcription := None |}).
Proof.
  assert (H1 : sample_user_team_0 7 = inr (Some {| teamId := Some 0%Z |}))
    by reflexivity.
  assert (H2 : Some {| teamId := Some 0%Z |} = None
               \/ exists row,
                    Some {| teamId := Some 0%Z |} = Some row
                    /\ (teamId row = None \/ teamId row = Some 0%Z)).
  { right. exists {| teamId := Some 0%Z |}. split; [reflexivity | now right]. }
  repeat (split; [assumption|]).
  exact (@user_without_a_team unit sample_user_team_0 groq_up sample_save
           (fun x => x) (zero_file 3) 7 _ H1 H2).
Defined.

Lemma oversized_submission_witness :
  sample_user 7 = inr (Some {| teamId := Some 1%Z |})
  /\ team_of (Some {| teamId := Some 1%Z |}) = Some 1%Z
  /\ (MAX_FILE_SIZE < file_size huge_file)%N
  /\ processTranscription sample_user groq_up sample_save (fun x => x)
       huge_file 7
     = ([CallGetUserWithTeam 7],
        inr {| error := Some (lit "File size exceeds maximum limit of 500MB");
               success := None;
               transcription := None |}).
Proof.
  assert (H1 : sample_user 7 = inr (Some {| teamId := Some 1%Z |}))
    by reflexivity.
  assert (H2 : team_of (Some {| teamId := Some 1%Z |}) = Some 1%Z)
    by reflexivity.
  assert (H3 : (MAX_FILE_SIZE < file_size huge_file)%N)
    by (rewrite file_size_zero_file; reflexivity).
  split; [exact H1|]. split; [exact H2|]. split; [exact H3|].
  exact (@oversized_submission unit sample_user groq_up sample_save
           (fun x => x) huge_file 7 _ _ H1 H2 H3).
Defined.

Lemma every_chunk_succeeds_witness :
  sample_user 7 = inr (Some {| teamId := Some 1%Z |})
  /\ team_of (Some {| teamId := Some 1%Z |}) = Some 1%Z
  /\ processAudioFile (zero_file 3) = inr (one_chunk (zero_file 3))
  /\ (forall i chunk,
        nth_error (chunks (one_chunk (zero_file 3))) i = Some chunk ->
        exists t,
          outcome_of groq_up (fileName (one_chunk (zero_file 3))) i chunk
          = inr t)
  /\ exists data,
       nth_error (fst (processTranscription sample_user groq_up sample_save
                         (fun x => x) (zero_file 3) 7)) 2
       = Some (CallSaveTranscription data)
       /\ d_originalText data = lit "a b"
       /\ d_status data = lit "complete"
       /\ d_errorLog data = None.
Proof.
  assert (H1 : sample_user 7 = inr (Some {| teamId := Some 1%Z |}))
    by reflexivity.
  assert (H2 : team_of (Some {| teamId := Some 1%Z |}) = Some 1%Z)
    by reflexivity.
  assert (H3 : processAudioFile (zero_file 3) = inr (one_chunk (zero_file 3)))
    by reflexivity.
  assert (H4 : forall i chunk,
             nth_error (chunks (one_chunk (zero_file 3))) i = Some chunk ->
             exists t,
               outcome_of groq_up (fileName (one_chunk (zero_file 3))) i chunk
               = inr t).
  { intros i chunk _. eexists. reflexivity. }
  repeat (split; [assumption|]).
  destruct (@every_chunk_succeeds unit sample_user groq_up sample_save
              (fun x => x) (zero_file 3) 7 _ _ _ H1 H2 H3 H4)
    as (transcripts & combined & data & Hloop & _ & _ & Hcombined & Htrace
        & Htext & Hstatus & Hlog & _).
  assert (Hrun : snd (transcribeChunks groq_up
                        (fileName (one_chunk (zero_file 3)))
                        (chunks (one_chunk (zero_file 3))) 0 [] [])
                 = inr ([sample_a], [])) by reflexivity.
  rewrite Hrun in Hloop. injection Hloop as <-.
  injection Hcombined as <-.
  exists data. rewrite Htrace. split; [reflexivity|].
  split; [exact Htext|]. now split.
Defined.

Lemma sample_data_is_saved :
  In (CallSaveTranscription sample_data)
     (fst (processTranscription sample_user groq_up sample_save
             (fun x => x) (zero_file 3) 7)).
Proof. right. right. left. reflexivity. Qed.

Lemma sample_data_is_offered :
  In (CallSaveTranscription sample_data)
     (fst (processTranscription sample_user groq_up sample_save_down
             (fun x => x) (zero_file 3) 7)).
Proof. right. right. left. reflexivity. Qed.

Lemma status_tells_failures_witness :
  In (CallSaveTranscription sample_data)
     (fst (processTranscription sample_user groq_up sample_save
             (fun x => x) (zero_file 3) 7))
  /\ d_status sample_data = lit "complete"
  /\ d_errorLog sample_data = None.
Proof.
  split; [exact sample_data_is_saved|].
  destruct (@status_tells_failures unit sample_user groq_up sample_save
              (fun x => x) (zero_file 3) 7 sample_data sample_data_is_saved)
    as (processed & transcripts & failed & Hfile & Hloop & _ & Hnone & _).
  apply Hnone.
  assert (Hp : processAudioFile (zero_file 3) = inr (one_chunk (zero_file 3)))
    by reflexivity.
  rewrite Hp in Hfile. injection Hfile as <-.
  assert (Hl : snd (transcribeChunks groq_up (fileName (one_chunk (zero_file 3)))
                      (chunks (one_chunk (zero_file 3))) 0 [] [])
               = inr ([sample_a], []))
    by reflexivity.
  rewrite Hl in Hloop. now injection Hloop as _ <-.
Defined.

Lemma store_failure_is_reported_witness :
  In (CallSaveTranscription sample_data)
     (fst (processTranscription sample_user groq_up sample_save_down
             (fun x => x) (zero_file 3) 7))
  /\ sample_save_down sample_data = inl (Error (lit "relation does not exist"))
  /\ snd (processTranscription sample_user groq_up sample_save_down
            (fun x => x) (zero_file 3) 7)
     = inr {| error := Some (lit "relation does not exist");
              success := None;
              transcription := None |}.
Proof.
  assert (H2 : sample_save_down sample_data
               = inl (Error (lit "relation does not exist")))
    by reflexivity.
  split; [exact sample_data_is_offered|]. split; [exact H2|].
  exact (@store_failure_is_reported unit sample_user groq_up sample_save_down
           (fun x => x) (zero_file 3) 7 sample_data _
           sample_data_is_offered H2).
Defined.

Lemma saved_record_describes_the_upload_witness :
  In (CallSaveTranscription sample_data)
     (fst (processTranscription sample_user groq_up sample_save
             (fun x => x) (zero_file 3) 7))
  /\ d_fileName sample_data = file_name (zero_file 3)
  /\ d_fileType sample_data = file_type (zero_file 3)
  /\ d_fileSize sample_data = file_size (zero_file 3)
  /\ d_userId sample_data = 7%Z.
Proof.
  split; [exact sample_data_is_saved|].
  destruct (@saved_record_describes_the_upload unit sample_user groq_up
              sample_save (fun x => x) (zero_file 3) 7 sample_data
              sample_data_is_saved)
    as (Hname & Htype & Hsize & Huser & _).
  now repeat split.
Defined.

(* ===================================================================== *)
(** * The validation schema and the other actions *)
(* ===================================================================== *)

Lemma string_eqb_eq a : forall b, string_eqb a b = true <-> a = b.
Proof.
  induction a as [|x a IH]; intros [|y b]; simpl;
    try (split; [discriminate | discriminate]); [tauto|].
  rewrite andb_true_iff, N.eqb_eq, IH. split.
  - now intros [-> ->].
  - now intros [= -> ->].
Qed.

Lemma string_eqb_refl a : string_eqb a a = true.
Proof. now apply string_eqb_eq. Qed.

Lemma schema_accepts file :
  transcriptionSchema file = [] <->
  type_is_allowed file = true /\ size_is_allowed file = true.
Proof.
  unfold transcriptionSchema.
  destruct (type_is_allowed file), (size_is_allowed file); simpl;
    split; try discriminate; try tauto; intros [? ?]; discriminate.
Qed.

Lemma size_is_allowed_spec file :
  size_is_allowed file = true <-> (file_size file <= MAX_FILE_SIZE)%N.
Proof. unfold size_is_allowed. apply N.leb_le. Qed.

(** X18. A file the schema accepts has one of the allowed audio types and is
    never turned away by the chunker, which cuts it into at least one and at
    most 25 chunks. *)
Theorem accepted_files_are_chunked file :
  transcriptionSchema file = [] ->
  In (file_type file) Actions.ALLOWED_AUDIO_TYPES
  /\ exists processed,
       processAudioFile file = inr processed
       /\ 1 <= length (chunks processed) <= 25.
Proof.
  intros Hok. apply schema_accepts in Hok. destruct Hok as [Htype Hsize].
  split.
  - unfold type_is_allowed in Htype. apply existsb_exists in Htype.
    destruct Htype as (t & Hin & Heq). apply string_eqb_eq in Heq.
    now rewrite Heq.
  - apply size_is_allowed_spec in Hsize.
    destruct (chunk_count_facts _ Hsize) as (processed & Hp & Hcount & _).
    now exists processed.
Qed.

Lemma accepted_files_are_chunked_witness :
  transcriptionSchema (zero_file 3) = []
  /\ In (file_type (zero_file 3)) Actions.ALLOWED_AUDIO_TYPES
  /\ exists processed,
       processAudioFile (zero_file 3) = inr processed
       /\ 1 <= length (chunks processed) <= 25.
Proof.
  assert (H : transcriptionSchema (zero_file 3) = []) by reflexivity.
  split; [exact H | exact (accepted_files_are_chunked (zero_file 3) H)].
Defined.

(** X19. The schema and the chunker turn away the same sizes: the schema
    reports ['File size too large. Maximum size is 500MB.'] exactly when
    [processAudioFile] throws, whatever the type of the file. *)
Theorem size_limits_agree file :
  In (lit "File size too large. Maximum size is 500MB.")
     (transcriptionSchema file)
  <-> exists e, processAudioFile file = inl e.
Proof.
  assert (Hthrows : (exists e, processAudioFile file = inl e)
                    <-> size_is_allowed file = false).
  { rewrite <- not_true_iff_false, size_is_allowed_spec.
    unfold processAudioFile.
    destruct (N.ltb_spec MAX_FILE_SIZE (file_size file)) as [Hgt|Hle].
    - split; [lia | eauto].
    - split; [|lia]. intros [e He].
      destruct (file_size file <=? GROQ_SIZE_LIMIT)%N; discriminate. }
  rewrite Hthrows. unfold transcriptionSchema.
  destruct (type_is_allowed file), (size_is_allowed file); simpl; split;
    try discriminate; try tauto; try (intros _; auto; fail).
  intros [H|[]]. discriminate H.
Qed.

Section OtherActionsFacts.

Variable getUserWithTeam : Z -> result (option UserWithTeam).

(** X20. The three other actions call nothing but the lookup of the user:
    nothing is read, deleted or updated, whatever the id.  They answer with
    their success message exactly when the user has a team, and with
    ['User is not part of a team'] when not; when the lookup throws they
    throw too, the lookup being outside their [try]. *)
Theorem other_actions_only_look_up_the_user transcriptionId name notes userId :
  let deleted := deleteTranscription getUserWithTeam transcriptionId userId in
  let updated :=
    updateTranscription getUserWithTeam transcriptionId name notes userId in
  let status := getTranscriptionStatus getUserWithTeam transcriptionId userId in
  fst deleted = [CallGetUserWithTeam userId]
  /\ fst updated = [CallGetUserWithTeam userId]
  /\ fst status = [CallGetUserWithTeam userId]
  /\ (forall e,
        getUserWithTeam userId = inl e ->
        snd deleted = inl e /\ snd updated = inl e /\ snd status = inl e)
  /\ (forall userWithTeam,
        getUserWithTeam userId = inr userWithTeam ->
        team_of userWithTeam = None ->
        snd deleted
        = inr {| a_error := Some (lit "User is not part of a team");
                 a_success := None |}
        /\ snd updated = snd deleted /\ snd status = snd deleted)
  /\ (forall userWithTeam team,
        getUserWithTeam userId = inr userWithTeam ->
        team_of userWithTeam = Some team ->
        snd deleted
        = inr {| a_error := None;
                 a_success := Some (lit "Transcription deleted successfully") |}
        /\ snd updated
           = inr {| a_error := None;
                    a_success := Some (lit "Transcription updated successfully") |}
        /\ snd status
           = inr {| a_error := None;
                    a_success := Some (lit "Status retrieved successfully") |}).
Proof.
  cbv zeta.
  unfold deleteTranscription, updateTranscription, getTranscriptionStatus.
  destruct (getUserWithTeam userId) as [e|userWithTeam] eqn:Huser.
  - cbn. repeat split; congruence.
  - cbn [bind]. destruct (team_of userWithTeam) as [team|] eqn:Hteam; cbn;
      repeat split; congruence.
Qed.

End OtherActionsFacts.

(* ===================================================================== *)
(** * The player *)
(* ===================================================================== *)

Lemma find_first {A} (f : A -> bool) (l : list A) x :
  find f l = Some x ->
  exists before after,
    l = before ++ x :: after
    /\ f x = true
    /\ Forall (fun y => f y = false) before.
Proof.
  induction l as [|a l IH]; simpl; [discriminate|].
  destruct (f a) eqn:E.
  - intros [= <-]. exists [], l. repeat split; trivial.
  - intros H. destruct (IH H) as (before & after & -> & Hx & Hb).
    exists (a :: before), after. repeat split; trivial. now constructor.
Qed.

Lemma leb_strict_equal x y : leb x y = true -> View.strict_equal x x = true.
Proof.
  unfold leb, SFleb, View.strict_equal, SFeqb.
  destruct x as [[]|[]| |[] m e], y as [[]|[]| |[] m' e']; simpl;
    try discriminate; try reflexivity; intros _;
    rewrite Z.compare_refl;
    change (Pos.compare_cont Eq m m) with (Pos.compare m m);
    now rewrite Pos.compare_refl.
Qed.

Lemma strict_equal_not_ltb c a b :
  View.strict_equal c a = true ->
  View.strict_equal c b = true ->
  ltb a b = false.
Proof.
  unfold View.strict_equal, SFeqb, ltb, SFltb.
  destruct c as [[]|[]| |[] mc ec], a as [[]|[]| |[] ma ea],
           b as [[]|[]| |[] mb eb]; simpl;
    try discriminate; try reflexivity; intros Hca Hcb; compare_cases.
Qed.

(** X21. When [getCurrentSegment] finds a segment, it is the first segment
    of the transcription on display whose span, ends included, holds the
    current time, and that segment is highlighted. *)
Theorem current_segment_is_the_first_match selected stateTranscription time
    current :
  View.getCurrentSegment selected stateTranscription time = Some current ->
  exists shown segs before after,
    View.currentTranscription selected stateTranscription = Some shown
    /\ View.segments shown = Some segs
    /\ segs = before ++ current :: after
    /\ leb (start current) time = true
    /\ leb time (end_ current) = true
    /\ Forall (fun s => leb (start s) time && leb time (end_ s) = false) before
    /\ View.highlighted selected stateTranscription time current = true.
Proof.
  intros Hcur. unfold View.highlighted. rewrite Hcur.
  unfold View.getCurrentSegment in Hcur.
  destruct (View.currentTranscription selected stateTranscription)
    as [shown|] eqn:Hshown; [|discriminate].
  destruct (View.segments shown) as [segs|] eqn:Hsegs; [|discriminate].
  apply find_first in Hcur.
  destruct Hcur as (before & after & Hsplit & Hin & Hbefore).
  unfold View.geb in Hin, Hbefore.
  apply andb_true_iff in Hin. destruct Hin as [Hlo Hhi].
  exists shown, segs, before, after.
  split; [reflexivity|]. split; [exact Hsegs|]. split; [exact Hsplit|].
  split; [exact Hlo|]. split; [exact Hhi|]. split; [exact Hbefore|].
  apply leb_strict_equal with (y := time). exact Hlo.
Qed.

Lemma current_segment_is_the_first_match_witness :
  View.getCurrentSegment (Some stored_a) None (of_Z 4)
  = Some (sample_segment 0 0 4 "a")
  /\ View.highlighted (Some stored_a) None (of_Z 4) (sample_segment 0 0 4 "a")
     = true
  /\ View.highlighted (Some stored_a) None (of_Z 4) (sample_segment 1 4 10 "b")
     = false.
Proof.
  assert (H : View.getCurrentSegment (Some stored_a) None (of_Z 4)
              = Some (sample_segment 0 0 4 "a")) by reflexivity.
  split; [exact H|].
  destruct (current_segment_is_the_first_match _ _ _ H)
    as (shown & segs & before & after & _ & _ & _ & _ & _ & _ & Hh).
  split; [exact Hh | reflexivity].
Defined.

(** X22. When the starts of the segments on display strictly increase, at
    most one segment is highlighted at a time. *)
Theorem at_most_one_highlight selected stateTranscription time shown segs :
  View.currentTranscription selected stateTranscription = Some shown ->
  View.segments shown = Some segs ->
  (forall i j a b,
     i < j -> nth_error segs i = Some a -> nth_error segs j = Some b ->
     ltb (start a) (start b) = true) ->
  forall i j a b,
    nth_error segs i = Some a -> nth_error segs j = Some b ->
    View.highlighted selected stateTranscription time a = true ->
    View.highlighted selected stateTranscription time b = true ->
    i = j.
Proof.
  intros Hshown Hsegs Hsorted i j a b Ha Hb.
  unfold View.highlighted.
  destruct (View.getCurrentSegment selected stateTranscription time)
    as [current|]; [|discriminate].
  intros Hca Hcb.
  destruct (Nat.lt_trichotomy i j) as [Hlt|[Heq|Hgt]]; [|exact Heq|].
  - pose proof (Hsorted i j a b Hlt Ha Hb) as H.
    now rewrite (strict_equal_not_ltb _ _ _ Hca Hcb) in H.
  - pose proof (Hsorted j i b a Hgt Hb Ha) as H.
    now rewrite (strict_equal_not_ltb _ _ _ Hcb Hca) in H.
Qed.

Lemma at_most_one_highlight_witness :
  View.currentTranscription (Some stored_a) None = Some stored_a
  /\ View.segments stored_a = Some (segments sample_a)
  /\ (forall i j a b,
        i < j ->
        nth_error (segments sample_a) i = Some a ->
        nth_error (segments sample_a) j = Some b ->
        ltb (start a) (start b) = true)
  /\ forall i j a b,
       nth_error (segments sample_a) i = Some a ->
       nth_error (segments sample_a) j = Some b ->
       View.highlighted (Some stored_a) None (of_Z 4) a = true ->
       View.highlighted (Some stored_a) None (of_Z 4) b = true ->
       i = j.
Proof.
  assert (H1 : View.currentTranscription (Some stored_a) None = Some stored_a)
    by reflexivity.
  assert (H2 : View.segments stored_a = Some (segments sample_a))
    by reflexivity.
  assert (H3 : forall i j a b,
             i < j ->
             nth_error (segments sample_a) i = Some a ->
             nth_error (segments sample_a) j = Some b ->
             ltb (start a) (start b) = true).
  { intros [|[|i]] [|[|j]] a b Hlt Ha Hb; simpl in Ha, Hb;
      try lia; try discriminate;
      try (destruct i; discriminate); try (destruct j; discriminate).
    injection Ha as <-. injection Hb as <-. reflexivity. }
  repeat (split; [assumption|]).
  exact (@at_most_one_highlight (Some stored_a) None (of_Z 4) stored_a
           (segments sample_a) H1 H2 H3).
Defined.

(** The hypothesis of X22 is not idle: merged offsets do not add up, so two
    segments can start at the same time, and then both are highlighted. *)
Example two_highlights :
  exists r a b,
    combineTranscriptions [sample_a; sample_a; sample_a] = inr r
    /\ map start (segments r)
       = [of_Z 0; of_Z 4; of_Z 10; of_Z 14; of_Z 10; of_Z 14]
    /\ nth_error (segments r) 2 = Some a
    /\ nth_error (segments r) 4 = Some b
    /\ View.highlighted
         (Some {| View.fileName := lit "a.mp3";
                  View.segments := Some (segments r);
                  View.duration := of_Z 20 |})
         None (of_Z 12) a = true
    /\ View.highlighted
         (Some {| View.fileName := lit "a.mp3";
                  View.segments := Some (segments r);
                  View.duration := of_Z 20 |})
         None (of_Z 12) b = true.
Proof.
  eexists. eexists. eexists. split; [reflexivity|].
  split; [reflexivity|]. split; [reflexivity|]. split; [reflexivity|].
  split; reflexivity.
Qed.

(** X23. When the duration of the transcription on display is 0 (as it is
    for a transcript without segments) or NaN, the width of the progress bar
    is never a finite number: it is NaN at time 0, and NaN or an infinity at
    any other time. *)
Theorem progress_width_without_duration time duration :
  View.truthy duration = false ->
  (View.progressWidth time duration = S754_nan
   \/ exists s, View.progressWidth time duration = S754_infinity s)
  /\ View.progressWidth zero duration = S754_nan.
Proof.
  intros Hd. unfold View.progressWidth. rewrite Hd. split.
  - destruct time as [[]|[]| |[] m e]; cbn; eauto.
  - reflexivity.
Qed.

Lemma progress_width_without_duration_witness :
  View.truthy zero = false
  /\ (View.progressWidth (of_Z 3) zero = S754_nan
      \/ exists s, View.progressWidth (of_Z 3) zero = S754_infinity s)
  /\ View.progressWidth zero zero = S754_nan.
Proof.
  assert (H : View.truthy zero = false) by reflexivity.
  split; [exact H | exact (progress_width_without_duration (of_Z 3) zero H)].
Defined.

Lemma step_keeps_selection st e :
  is_select e = false ->
  View.selectedTranscription (fst (View.step st e))
  = View.selectedTranscription st.
Proof.
  destruct e as [[file|] url present| |[]| |[time|]| |]; simpl;
    try discriminate; reflexivity.
Qed.

Lemma step_selection_stays st e :
  View.selectedTranscription st <> None ->
  View.selectedTranscription (fst (View.step st e)) <> None.
Proof.
  destruct e as [[file|] url present| |[]| |[time|]| |]; simpl;
    trivial; discriminate.
Qed.

Lemma run_cons st e events :
  View.run st (e :: events)
  = (fst (View.run (fst (View.step st e)) events),
     snd (View.step st e) ++ snd (View.run (fst (View.step st e)) events)).
Proof.
  cbn [View.run]. destruct (View.step st e) as [st1 effects1].
  cbn [fst snd]. now destruct (View.run st1 events).
Qed.

(** X24. Once an entry of the history is picked, the answers of the form are
    never on display again: whatever happens next, the transcription on
    display is a picked entry, and it is the same entry for as long as no
    other is picked. *)
Theorem picked_entry_stays_on_display st events picked :
  View.selectedTranscription st = Some picked ->
  (exists entry,
     View.selectedTranscription (fst (View.run st events)) = Some entry
     /\ View.shown (fst (View.run st events)) = Some entry)
  /\ (forallb (fun e => negb (is_select e)) events = true ->
      View.shown (fst (View.run st events)) = Some picked).
Proof.
  intros Hpicked.
  assert (Hshown : forall st',
            View.shown st'
            = match View.selectedTranscription st' with
              | Some t => Some t
              | None => View.transcription (View.state st')
              end) by reflexivity.
  split.
  - assert (Hsome : View.selectedTranscription (fst (View.run st events))
                    <> None).
    { assert (Hst : View.selectedTranscription st <> None) by congruence.
      clear Hpicked. revert st Hst.
      induction events as [|e events IH]; intros st Hst; [exact Hst|].
      rewrite run_cons. cbn [fst]. apply IH. now apply step_selection_stays. }
    rewrite Hshown.
    destruct (View.selectedTranscription (fst (View.run st events)))
      as [entry|]; [|contradiction]. now exists entry.
  - revert st Hpicked.
    induction events as [|e events IH]; intros st Hpicked Hnone.
    + rewrite Hshown. simpl. now rewrite Hpicked.
    + simpl in Hnone. apply andb_true_iff in Hnone.
      destruct Hnone as [He Hrest]. apply negb_true_iff in He.
      rewrite run_cons. cbn [fst]. apply IH; [|exact Hrest].
      now rewrite step_keeps_selection.
Qed.

Lemma picked_entry_stays_on_display_witness :
  View.selectedTranscription state_with_a = Some stored_a
  /\ View.shown
       (fst (View.run state_with_a
               [View.FormAnswer
                  {| View.error := None;
                     View.success := Some (lit "Transcription completed successfully");
                     View.transcription :=
                       Some {| View.fileName := lit "b.mp3";
                               View.segments := None;
                               View.duration := zero |} |};
                View.TogglePlayPause true]))
     = Some stored_a.
Proof.
  assert (H : View.selectedTranscription state_with_a = Some stored_a)
    by reflexivity.
  split; [exact H|].
  apply (picked_entry_stays_on_display state_with_a _ H). reflexivity.
Defined.

Lemma remove_first_head url urls : remove_first url (url :: urls) = urls.
Proof. simpl. now rewrite string_eqb_refl. Qed.

(** What one handler call does to the object URLs alive, when the state
    holds the one URL alive, if any. *)
Lemma step_live_urls st e :
  fresh_url_ok e = true ->
  (View.audioUrl st = None
   \/ exists c url, View.audioUrl st = Some (c :: url)) ->
  let alive st := match View.audioUrl st with
                  | Some url => [url]
                  | None => []
                  end in
  fold_left live_step (snd (View.step st e)) (alive st)
  = alive (fst (View.step st e))
  /\ (View.audioUrl (fst (View.step st e)) = None
      \/ exists c url, View.audioUrl (fst (View.step st e)) = Some (c :: url)).
Proof.
  intros Hfresh Hst. cbv zeta.
  destruct e as [[file|] url present|t present|[]|seg present|[time|]| |answer];
    cbn [View.step fst snd View.audioUrl]; try (split; [reflexivity | exact Hst]).
  - assert (Hurl : exists c rest, url = c :: rest).
    { destruct url; [discriminate Hfresh | eauto]. }
    split; [|right; destruct Hurl as (c & rest & ->); eauto].
    destruct Hst as [Hnone | (c & old & Hold)].
    + rewrite Hnone. destruct present; reflexivity.
    + rewrite Hold. cbn [View.url_truthy app fold_left live_step].
      rewrite remove_first_head. destruct present; reflexivity.
  - split; [destruct present; reflexivity | exact Hst].
  - split; [destruct (View.isPlaying st); reflexivity | exact Hst].
  - split; [destruct present; reflexivity | exact Hst].
Qed.

(** X25. At every moment at most one object URL is alive, the one the state
    holds: each change of file revokes the URL of the file before, then
    creates one for the new file.  (The URLs the browser hands out are not
    empty strings.) *)
Theorem one_object_url_is_alive events :
  forallb fresh_url_ok events = true ->
  live_urls (snd (View.run View.initial events))
  = match View.audioUrl (fst (View.run View.initial events)) with
    | Some url => [url]
    | None => []
    end.
Proof.
  unfold live_urls.
  assert (Hgen : forall st,
    forallb fresh_url_ok events = true ->
    (View.audioUrl st = None
     \/ exists c url, View.audioUrl st = Some (c :: url)) ->
    fold_left live_step (snd (View.run st events))
      match View.audioUrl st with Some url => [url] | None => [] end
    = match View.audioUrl (fst (View.run st events)) with
      | Some url => [url]
      | None => []
      end).
  { induction events as [|e events IH]; intros st Hfresh Hst; [reflexivity|].
    simpl in Hfresh. apply andb_true_iff in Hfresh.
    destruct Hfresh as [He Hrest].
    rewrite run_cons. cbn [fst snd]. rewrite fold_left_app.
    destruct (step_live_urls st e He Hst) as [Hstep Hst'].
    cbv zeta in Hstep. rewrite Hstep. now apply IH. }
  intros Hfresh. apply (Hgen View.initial Hfresh). now left.
Qed.

Lemma one_object_url_is_alive_witness :
  forallb fresh_url_ok
    [View.FileChange (Some (zero_file 3)) (lit "blob:1") true;
     View.FileChange None (lit "blob:2") true;
     View.FileChange (Some (zero_file 3)) (lit "blob:3") true] = true
  /\ live_urls
       (snd (View.run View.initial
               [View.FileChange (Some (zero_file 3)) (lit "blob:1") true;
                View.FileChange None (lit "blob:2") true;
                View.FileChange (Some (zero_file 3)) (lit "blob:3") true]))
     = [lit "blob:3"].
Proof.
  assert (H : forallb fresh_url_ok
                [View.FileChange (Some (zero_file 3)) (lit "blob:1") true;
                 View.FileChange None (lit "blob:2") true;
                 View.FileChange (Some (zero_file 3)) (lit "blob:3") true]
              = true) by reflexivity.
  split; [exact H|].
  rewrite (one_object_url_is_alive _ H). reflexivity.
Defined.
